(** * The catalog scraper [scraper_new.py]: a shallow embedding and its properties

    The scraper discovers department codes from 26 index pages, fetches one
    JSON shard per department with a bounded number of attempts, cuts the
    JSON array out of each response, and removes duplicate courses.

    What belongs to the interpreter or to third-party libraries (the network,
    the HTML parser, [bytes.decode], [json.loads], [str] of a dict, the
    Unicode tables behind [\w]) is a [Variable] of a section: every theorem
    then holds whatever those do.  Reference models of [bytes.decode] and
    [json.loads] follow the embedding, to run the pipeline on examples. *)

From Stdlib Require Import ZArith NArith List Floats.
From Stdlib.Strings Require Import String Ascii Byte.
From stdpp Require Import base tactics option list sorting.

Open Scope Z_scope.

(** ** Text and bytes *)

(** A Python [str] is a sequence of code points, a [bytes] a sequence of
    bytes. *)
Definition str : Type := list N.
Definition bytes : Type := list byte.

(** The [str] written with ASCII characters only. *)
Definition lit (s : string) : str :=
  map N_of_ascii (list_ascii_of_string s).

(** The [bytes] literal [b"..."]. *)
Definition blit (s : string) : bytes := list_byte_of_string s.

(** ** Exceptions, and runs that leave a trace *)

(** The exceptions that occur in the scraper.  All of them derive from
    [Exception], so both [except:] and [except Exception] catch them. *)
Inductive exn : Type :=
  | TransportError      (* whatever [session.get] or [r.read] raised *)
  | JSONDecodeError     (* [json.loads] on malformed text *)
  | RecursionError      (* [json.loads] on text nested too deeply *)
  | TypeError           (* not iterable, or unhashable *)
  | AttributeError.     (* no method [get] *)

Record request : Type := Request {
  url : str;
  params : option (list (str * str))
}.

(** What the network does with one [session.get(url, params=params)]
    followed by [r.read()]: a response with some status code and a body, or
    an exception. *)
Inductive outcome : Type :=
  | Response (status : Z) (body : bytes)
  | Failure (e : exn).

(** The observable steps of a fetch: a request sent, a pause taken. *)
Inductive event : Type :=
  | EvGet (req : request)
  | EvSleep (seconds : float).

(** A computation yields a value or raises, and leaves the events it went
    through. *)
Definition Run (A : Type) : Type := list event * (exn + A).

Definition trace {A} (m : Run A) : list event := fst m.
Definition result {A} (m : Run A) : exn + A := snd m.

#[global] Instance run_ret : MRet Run := λ A a, ([], inr a).

#[global] Instance run_bind : MBind Run := λ A B f m,
  match m with
  | (t, inl e) => (t, inl e)
  | (t, inr a) => let '(t', r) := f a in (t ++ t', r)
  end.

Definition raise {A} (e : exn) : Run A := ([], inl e).

Definition tell (ev : event) : Run unit := ([ev], inr tt).

(** [try: body / except: handler] *)
Definition try_except {A} (body : Run A) (handler : exn → Run A) : Run A :=
  match body with
  | (t, inl e) => let '(t', r) := handler e in (t ++ t', r)
  | (t, inr a) => (t, inr a)
  end.

Definition is_get (ev : event) : bool :=
  match ev with EvGet _ => true | EvSleep _ => false end.

Definition is_sleep (ev : event) : bool :=
  match ev with EvSleep _ => true | EvGet _ => false end.

(** How many requests were sent, how many pauses were taken. *)
Definition attempts (t : list event) : nat := length (List.filter is_get t).
Definition delays (t : list event) : nat := length (List.filter is_sleep t).

(** The pause of [fetch], [asyncio.sleep(0.4)]: the double nearest to 0.4. *)
Definition backoff : float := 0x1.999999999999ap-2%float.

(** ** Generic fetch helper *)

Section Fetch.

(** [net req k] is what the network answers to the attempt number [k]
    (from 0) of the fetch of [req].  Every request of a run is fetched by
    one call of [fetch] only: the index pages differ by their letter, and
    the departments come out of a [set]. *)
Variable net : request → nat → outcome.

(** [async with session.get(url, params=params) as r: ... await r.read()].
    The session is made with a timeout only, so it does not raise on an
    error status, and the status code of the response is not looked at. *)
Definition session_get (req : request) (k : nat) : Run bytes :=
  tell (EvGet req) ;;
  match net req k with
  | Response _ body => mret body
  | Failure e => raise e
  end.

(** One turn of the loop of [fetch].  [Some body]: the turn ended in
    [return await r.read()]; [None]: the [except:] branch ran, and the
    loop goes on. *)
Definition attempt (req : request) (k : nat) : Run (option bytes) :=
  try_except
    (body ← session_get req k; mret (Some body))
    (λ _, tell (EvSleep backoff) ;; mret None).

(** [for _ in range(retries): ...], then [return None].  [k] is the
    number of turns already taken. *)
Fixpoint fetch_loop (req : request) (k n : nat) : Run (option bytes) :=
  match n with
  | O => mret None
  | S n' =>
      r ← attempt req k;
      match r with
      | Some body => mret (Some body)
      | None => fetch_loop req (S k) n'
      end
  end.

(** [fetch(session, url, params=None, retries=3)]; [range] of a negative
    number is empty. *)
Definition fetch (req : request) (retries : Z) : Run (option bytes) :=
  fetch_loop req 0 (Z.to_nat retries).

End Fetch.

(** ** Python slices and searches on sequences *)

(** A slice bound brought into [0 .. len]: a negative bound counts from the
    end. *)
Definition slice_index (len i : Z) : Z :=
  if i <? 0 then Z.max (i + len) 0 else Z.min i len.

(** [l[start:stop]], either bound possibly left out. *)
Definition slice {A} (start stop : option Z) (l : list A) : list A :=
  let len := Z.of_nat (length l) in
  let a := match start with Some i => slice_index len i | None => 0 end in
  let b := match stop with Some i => slice_index len i | None => len end in
  take (Z.to_nat (b - a)) (drop (Z.to_nat a) l).

(** [s.startswith(p)] *)
Fixpoint starts_with (p s : str) : bool :=
  match p, s with
  | [], _ => true
  | _ :: _, [] => false
  | x :: p', y :: s' => (x =? y)%N && starts_with p' s'
  end.

(** [text.find(c)] for a one-character [c]: the least offset at which [c]
    occurs, [None] standing for the [-1] of Python. *)
Fixpoint find_char (c : N) (s : str) : option nat :=
  match s with
  | [] => None
  | x :: s' => if (x =? c)%N then Some O else S <$> find_char c s'
  end.

(** The order of [sorted] on [str]: lexicographic on code points. *)
Fixpoint str_leb (a b : str) : bool :=
  match a, b with
  | [], _ => true
  | _ :: _, [] => false
  | x :: a', y :: b' =>
      if (x <? y)%N then true
      else if (x =? y)%N then str_leb a' b' else false
  end.

Definition str_le (a b : str) : Prop := str_leb a b = true.

#[global] Instance str_le_dec : RelDecision str_le.
Proof. intros a b. unfold str_le. apply _. Defined.

(** [sorted(set(l))].  The order in which a [set] enumerates its elements
    does not matter: [sorted] brings the distinct elements into the one
    increasing order. *)
Definition sorted_set (l : list str) : list str :=
  merge_sort str_le (remove_dups l).

(** ** Department codes of one index page *)

(** What the scraper reads of a parsed page: the [<tr>] elements that
    [soup.select("table tr")] returns, each with the [<a>] elements that
    [row.find_all("a")] returns, each with its [href] attribute if it has
    one. *)
Record tag_a : Type := TagA { attr_href : option str }.
Record tag_tr : Type := TagTr { find_all_a : list tag_a }.

Section IndexParser.

(** [str.isalnum] of a character beyond ASCII: the Unicode database. *)
Variable unicode_isalnum : N → bool.

(** [BeautifulSoup(html, "lxml").select("table tr")] *)
Variable select_table_tr : bytes → list tag_tr.

Definition between (lo hi c : N) : bool := (lo <=? c)%N && (c <=? hi)%N.

(** The class [\w] of a [str] pattern: alphanumeric or underscore. *)
Definition is_word (c : N) : bool :=
  if (c <? 128)%N
  then between 48 57 c || between 65 90 c || between 97 122 c || (c =? 95)%N
  else unicode_isalnum c.

(** What follows the group in the pattern:
    ["_" + re.escape(semester) + r"\.html"], a literal text. *)
Definition after_group (semester : str) : str :=
  lit "_" ++ semester ++ lit ".html".

(** The pattern after its leading [/], with the group [(\w{2,6})] taking
    exactly [n] characters. *)
Definition match_width (semester s : str) (n : nat) : option str :=
  let g := take n s in
  if (length g =? n)%nat && forallb is_word g
     && starts_with (after_group semester) (drop n s)
  then Some g else None.

(** The first width of [ws] at which the pattern matches. *)
Fixpoint first_width (semester s : str) (ws : list nat) : option str :=
  match ws with
  | [] => None
  | n :: ws' =>
      match match_width semester s n with
      | Some g => Some g
      | None => first_width semester s ws'
      end
  end.

(** The pattern [r"/(\w{2,6})_" + re.escape(semester) + r"\.html"] tried
    at the head of [s]; the quantifier is greedy, so the longest group is
    tried first.  Yields [m.group(1)]. *)
Definition match_here (semester s : str) : option str :=
  match s with
  | c :: s' =>
      if (c =? 47)%N then first_width semester s' [6; 5; 4; 3; 2]%nat else None
  | [] => None
  end.

(** [regex.search(href)]: the match at the least offset. *)
Fixpoint search (semester href : str) : option str :=
  match match_here semester href with
  | Some g => Some g
  | None =>
      match href with
      | [] => None
      | _ :: href' => search semester href'
      end
  end.

(** [a.get("href", ...)] with the empty [str] as the default *)
Definition get_href (a : tag_a) : str := default [] (attr_href a).

(** The codes that one anchor contributes: [m.group(1)] if the pattern
    is found in its target. *)
Definition anchor_codes (semester : str) (a : tag_a) : list str :=
  match search semester (get_href a) with
  | Some g => [g]
  | None => []
  end.

Definition parse_department_page (html : bytes) (semester : str) : list str :=
  let rows := slice (Some 3) (Some (-1)) (select_table_tr html) in
  row ← rows; a ← find_all_a row; anchor_codes semester a.

End IndexParser.

(** ** Discovery of the departments *)

Definition UWB_ROOT : str := lit "http://www.columbia.edu/cu/bulletin/uwb/sel".
Definition VERGIL_ROOT : str := lit "https://vergil.registrar.columbia.edu".

Definition MANUAL_DEPTS : list str :=
  [lit "HIST"; lit "UNHS"; lit "UNHI"; lit "GUHIS"].

(** [not page], for what [fetch] returns: [None] and the empty [bytes] are
    false. *)
Definition falsy (page : option bytes) : bool :=
  match page with
  | None | Some [] => true
  | Some (_ :: _) => false
  end.

Section Discovery.

Variable unicode_isalnum : N → bool.
Variable select_table_tr : bytes → list tag_tr.
Variable net : request → nat → outcome.

(** [f"{UWB_ROOT}/dept-{chr(c)}.html"] *)
Definition index_request (c : N) : request :=
  Request (UWB_ROOT ++ lit "/dept-" ++ [c] ++ lit ".html") None.

(** [range(65, 91)] *)
Definition index_letters : list N := N.of_nat <$> seq 65 26.

(** The codes of the pages that came back, in the order of the pages. *)
Definition page_codes (semester : str) (page : option bytes) : list str :=
  if falsy page then []
  else parse_department_page unicode_isalnum select_table_tr
         (default [] page) semester.

(** [get_departments()].  [asyncio.gather] returns the pages in the order
    of the tasks; the 26 fetches run concurrently, so in the trace only
    the order of the events of one and the same request means something. *)
Definition get_departments (semester : str) : Run (list str) :=
  pages ← mapM (λ c, fetch net (index_request c) 3) index_letters;
  mret (sorted_set (page ← pages; page_codes semester page)).

(** The departments that [scrape_courses] goes through: those found,
    with the manual ones added. *)
Definition discover (semester : str) (manual : list str) : Run (list str) :=
  departments ← get_departments semester;
  mret (sorted_set (departments ++ manual)).

End Discovery.


(** ** The values that [json.loads] builds *)

(** A [dict] keeps its keys, which are [str] here, in the order in which
    they were inserted. *)
#[warnings="-register-all"]
Inductive pyval : Type :=
  | PNone
  | PBool (b : bool)
  | PInt (z : Z)
  | PFloat (f : float)
  | PStr (s : str)
  | PList (l : list pyval)
  | PDict (d : list (str * pyval)).

(** The truth value of a value, as [or] and [not] see it. *)
Definition truthy (v : pyval) : bool :=
  match v with
  | PNone => false
  | PBool b => b
  | PInt z => negb (z =? 0)
  | PFloat f => negb (f =? 0)%float
  | PStr s => negb (bool_decide (s = []))
  | PList l => match l with [] => false | _ => true end
  | PDict d => match d with [] => false | _ => true end
  end.

(** The value at the first entry of key [k]. *)
Fixpoint dict_lookup (d : list (str * pyval)) (k : str) : option pyval :=
  match d with
  | [] => None
  | (k', v) :: d' => if decide (k' = k) then Some v else dict_lookup d' k
  end.

Definition lift {A} (r : exn + A) : Run A := ([], r).

(** [c.get(k)]: only a [dict] has the method; a missing key gives [None]. *)
Definition py_get (c : pyval) (k : str) : Run pyval :=
  match c with
  | PDict d => mret (default PNone (dict_lookup d k))
  | _ => raise AttributeError
  end.

(** What iterating over a value yields, for [list.extend]: the elements of
    a list, the keys of a dict, the characters of a str. *)
Definition py_iter (v : pyval) : Run (list pyval) :=
  match v with
  | PList l => mret l
  | PDict d => mret ((λ kv, PStr (fst kv)) <$> d)
  | PStr s => mret ((λ c, PStr [c]) <$> s)
  | PNone | PBool _ | PInt _ | PFloat _ => raise TypeError
  end.

(** *** What a set of values tells apart *)

(** Two hashable values are one and the same member of a [set] when they
    are equal for [==]: numbers by their exact value, whatever their type
    ([True == 1 == 1.0]), strings by their characters.  A key is a value up
    to that equality: a number is [m * 2^e] with [m] odd, or zero, or an
    infinity.  The only NaN that [json.loads] builds is the one object
    [json.decoder.NaN], which a set finds again by identity. *)
Inductive hkey : Type :=
  | KNone
  | KNum (m e : Z)
  | KInf (negative : bool)
  | KNan
  | KStr (s : str).

#[global] Instance hkey_eq_dec : EqDecision hkey.
Proof. solve_decision. Defined.

Fixpoint odd_part (m : positive) (e : Z) : positive * Z :=
  match m with
  | xO m' => odd_part m' (e + 1)
  | _ => (m, e)
  end.

Definition num_key (negative : bool) (m : positive) (e : Z) : hkey :=
  let '(q, e') := odd_part m e in
  KNum (if negative then Zneg q else Zpos q) e'.

Definition int_key (z : Z) : hkey :=
  match z with
  | Z0 => KNum 0 0
  | Zpos m => num_key false m 0
  | Zneg m => num_key true m 0
  end.

Definition float_key (f : float) : hkey :=
  match Prim2SF f with
  | S754_zero _ => KNum 0 0
  | S754_infinity s => KInf s
  | S754_nan => KNan
  | S754_finite s m e => num_key s m e
  end.

(** [hash(v)], which a set takes of every value looked up or added: lists
    and dicts are unhashable. *)
Definition hash_key (v : pyval) : Run hkey :=
  match v with
  | PNone => mret KNone
  | PBool b => mret (int_key (Z.b2z b))
  | PInt z => mret (int_key z)
  | PFloat f => mret (float_key f)
  | PStr s => mret (KStr s)
  | PList _ | PDict _ => raise TypeError
  end.

(** ** Courses: harvest and deduplication *)

(** A loop that carries an accumulator through a list. *)
Fixpoint for_each {A B} (f : B → A → Run B) (acc : B) (l : list A) : Run B :=
  match l with
  | [] => mret acc
  | x :: l' => acc' ← f acc x; for_each f acc' l'
  end.

Section Courses.

Variable net : request → nat → outcome.

(** [raw.decode("utf-8", errors="ignore")] *)
Variable decode_utf8_ignore : bytes → str.

(** [json.loads(text)] *)
Variable json_loads : str → exn + pyval.

(** [str(c)] *)
Variable py_str : pyval → str.

(** The query of one department. *)
Definition shard_request (term_code dept : str) : request :=
  Request (VERGIL_ROOT ++ lit "/doc-adv-queries.php")
    (Some [(lit "dept", dept); (lit "key", lit "*");
           (lit "moreresults", lit "2"); (lit "term", term_code)]).

(** The part of the loop body that follows [if not raw: continue], for a
    [raw] that is not empty: it returns [all_courses] as the turn leaves
    it. *)
Definition extract (all_courses : list pyval) (raw : bytes) : Run (list pyval) :=
  let text := decode_utf8_ignore raw in
  match find_char 91 text with
  | None => mret all_courses
  | Some json_start =>
      try_except
        (data ← lift (json_loads (drop json_start text));
         new ← py_iter data;
         mret (all_courses ++ new))
        (λ _, mret all_courses)
  end.

(** One turn of [for dept in tqdm(departments, ...)]. *)
Definition harvest_one (term_code : str) (all_courses : list pyval) (dept : str)
  : Run (list pyval) :=
  raw ← fetch net (shard_request term_code dept) 3;
  if falsy raw then mret all_courses
  else extract all_courses (default [] raw).

Definition harvest (term_code : str) (departments : list str) : Run (list pyval) :=
  for_each (harvest_one term_code) [] departments.

(** [cid = c.get("id") or c.get("CourseNumber") or str(c)] *)
Definition identity_key (c : pyval) : Run pyval :=
  a ← py_get c (lit "id");
  if truthy a then mret a
  else
    b ← py_get c (lit "CourseNumber");
    if truthy b then mret b
    else mret (PStr (py_str c)).

(** One turn of [for c in all_courses], on the pair of [seen] and
    [deduped]. *)
Definition dedupe_one (st : list hkey * list pyval) (c : pyval)
  : Run (list hkey * list pyval) :=
  let '(seen, deduped) := st in
  cid ← identity_key c;
  k ← hash_key cid;
  if decide (k ∈ seen) then mret (seen, deduped)
  else mret (k :: seen, deduped ++ [c]).

(** The deduplication at the end of [get_courses]. *)
Definition dedupe (all_courses : list pyval) : Run (list pyval) :=
  st ← for_each dedupe_one ([], []) all_courses;
  mret (snd st).

Definition get_courses (term_code : str) (departments : list str) : Run (list pyval) :=
  all_courses ← harvest term_code departments;
  dedupe all_courses.

End Courses.

(** ** Reference models of the library functions

    Models of [bytes.decode("utf-8", errors="ignore")] and of [json.loads]
    as CPython has them, to run the scraper on examples.  The limits that
    depend on the settings of the interpreter (the recursion limit, the
    longest integer literal that [int] converts) are left out: the
    reference decoder accepts such texts. *)

Module Utf8.

(** A multi-byte sequence under way: how many continuation bytes are still
    to come, the bits gathered so far, and the range in which the next byte
    must lie. *)
Record pending : Type := Pending {
  need : nat;
  bits : N;
  lo : N;
  hi : N
}.

(** A byte met outside of a sequence.  The ranges of the second byte rule
    out overlong forms, surrogates and code points above U+10FFFF. *)
Definition start (c : N) : list N * option pending :=
  if (c <? 0x80)%N then ([c], None)
  else if (c <? 0xC2)%N then ([], None)
  else if (c <? 0xE0)%N then ([], Some (Pending 0 (N.land c 0x1F) 0x80 0xBF))
  else if (c <? 0xF0)%N then
    ([], Some (Pending 1 (N.land c 0x0F)
                 (if (c =? 0xE0)%N then 0xA0 else 0x80)
                 (if (c =? 0xED)%N then 0x9F else 0xBF)))
  else if (c <? 0xF5)%N then
    ([], Some (Pending 2 (N.land c 0x07)
                 (if (c =? 0xF0)%N then 0x90 else 0x80)
                 (if (c =? 0xF4)%N then 0x8F else 0xBF)))
  else ([], None).

(** One byte more.  A byte that does not continue the sequence under way
    ends it: the bytes of the sequence are dropped, and the byte is read
    again as the start of a new one. *)
Definition step (st : option pending) (c : N) : list N * option pending :=
  match st with
  | None => start c
  | Some p =>
      if (lo p <=? c)%N && (c <=? hi p)%N then
        let bits' := N.lor (N.shiftl (bits p) 6) (N.land c 0x3F) in
        match need p with
        | O => ([bits'], None)
        | S n => ([], Some (Pending n bits' 0x80 0xBF))
        end
      else start c
  end.

(** A sequence that the end of the input cuts short is dropped. *)
Fixpoint decode_from (st : option pending) (raw : bytes) : str :=
  match raw with
  | [] => []
  | b :: raw' =>
      let '(out, st') := step st (Byte.to_N b) in
      out ++ decode_from st' raw'
  end.

Definition decode_ignore (raw : bytes) : str := decode_from None raw.

End Utf8.

Module Json.

Definition is_ws (c : N) : bool :=
  (c =? 32)%N || (c =? 9)%N || (c =? 10)%N || (c =? 13)%N.

Fixpoint skip_ws (s : str) : str :=
  match s with
  | c :: s' => if is_ws c then skip_ws s' else s
  | [] => []
  end.

Definition is_digit (c : N) : bool := (48 <=? c)%N && (c <=? 57)%N.

Definition hex_digit (c : N) : option N :=
  if is_digit c then Some (c - 48)%N
  else if (65 <=? c)%N && (c <=? 70)%N then Some (c - 55)%N
  else if (97 <=? c)%N && (c <=? 102)%N then Some (c - 87)%N
  else None.

Definition hex4 (a b c d : N) : option N :=
  x ← hex_digit a; y ← hex_digit b; z ← hex_digit c; w ← hex_digit d;
  Some (x * 4096 + y * 256 + z * 16 + w)%N.

(** The character that a one-letter escape stands for. *)
Definition escape (c : N) : option N :=
  if (c =? 34)%N then Some 34%N            (* quote *)
  else if (c =? 92)%N then Some 92%N       (* backslash *)
  else if (c =? 47)%N then Some 47%N       (* slash *)
  else if (c =? 98)%N then Some 8%N        (* b: backspace *)
  else if (c =? 102)%N then Some 12%N      (* f: form feed *)
  else if (c =? 110)%N then Some 10%N      (* n: line feed *)
  else if (c =? 114)%N then Some 13%N      (* r: carriage return *)
  else if (c =? 116)%N then Some 9%N       (* t: tab *)
  else None.

Definition is_high_surrogate (c : N) : bool := (0xD800 <=? c)%N && (c <=? 0xDBFF)%N.
Definition is_low_surrogate (c : N) : bool := (0xDC00 <=? c)%N && (c <=? 0xDFFF)%N.

(** The text of a string after its opening quote, up to the closing one;
    [None] when the string is not well formed.  A high surrogate joins the
    low surrogate that follows it into one code point. *)
Fixpoint scanstring (s : str) : option (str * str) :=
  match s with
  | [] => None
  | 34%N :: s' => Some ([], s')
  | 92%N :: 117%N :: a :: b :: c :: d :: s' =>
      u ← hex4 a b c d;
      match s' with
      | 92%N :: 117%N :: a2 :: b2 :: c2 :: d2 :: s'' =>
          if is_high_surrogate u then
            u2 ← hex4 a2 b2 c2 d2;
            if is_low_surrogate u2 then
              '(t, r) ← scanstring s'';
              Some ((0x10000 + (u - 0xD800) * 0x400 + (u2 - 0xDC00))%N :: t, r)
            else
              '(t, r) ← scanstring s'; Some (u :: t, r)
          else
            '(t, r) ← scanstring s'; Some (u :: t, r)
      | _ => '(t, r) ← scanstring s'; Some (u :: t, r)
      end
  | 92%N :: e :: s' =>
      c ← escape e; '(t, r) ← scanstring s'; Some (c :: t, r)
  | c :: s' =>
      if (c <? 32)%N || (c =? 92)%N then None
      else '(t, r) ← scanstring s'; Some (c :: t, r)
  end.

(** The digits at the head of [s], as a number, with their count. *)
Fixpoint scan_digits (s : str) (acc : Z) (count : Z) : Z * Z * str :=
  match s with
  | c :: s' =>
      if is_digit c then scan_digits s' (10 * acc + Z.of_N (c - 48)) (count + 1)
      else (acc, count, s)
  | [] => (acc, count, s)
  end.

(** [floor (n / d / 2^e)], with the remainder and the divisor. *)
Definition scaled (n d e : Z) : Z * Z * Z :=
  let n' := if e <? 0 then n * 2 ^ (- e) else n in
  let d' := if e <? 0 then d else d * 2 ^ e in
  (n' / d', n' mod d', d').

(** The double nearest to [m * 10^e10], ties to even: [float] on a
    decimal literal. *)
Definition float_of_decimal (negative : bool) (m e10 : Z) : float :=
  let sign (f : float) := if negative then (- f)%float else f in
  if m =? 0 then sign 0%float
  else
    let n := if 0 <=? e10 then m * 10 ^ e10 else m in
    let d := if 0 <=? e10 then 1 else 10 ^ (- e10) in
    let e1 := Z.log2 n - Z.log2 d - 53 in
    let '(q1, _, _) := scaled n d e1 in
    let e2 := Z.max (if 2 ^ 53 <=? q1 then e1 + 1 else e1) (-1074) in
    let '(q, r, d') := scaled n d e2 in
    let q' := if (d' <? 2 * r) || ((d' =? 2 * r) && Z.odd q) then q + 1 else q in
    if 971 <? e2 then sign infinity
    else sign (Z.ldexp (of_uint63 (Uint63.of_Z q')) e2).

(** A number at the head of [s]: an optional minus sign, an integer part
    without leading zeros, then possibly a fraction and an exponent, each
    taken only with a digit in it. *)
Definition scan_number (s : str) : option (pyval * str) :=
  let '(negative, s0) :=
    match s with 45%N :: t => (true, t) | _ => (false, s) end in
  match s0 with
  | c :: t =>
      if is_digit c then
        let '(int_part, _, s1) :=
          if (c =? 48)%N then (0, 1, t) else scan_digits s0 0 0 in
        let '(mant, frac_len, s2) :=
          match s1 with
          | 46%N :: c1 :: _ =>
              if is_digit c1 then scan_digits (tail s1) int_part 0
              else (int_part, 0, s1)
          | _ => (int_part, 0, s1)
          end in
        let '(has_exp, e, s3) :=
          match s2 with
          | x :: t2 =>
              if (x =? 101)%N || (x =? 69)%N then
                match t2 with
                | 45%N :: c2 :: _ =>
                    if is_digit c2 then
                      let '(v, _, r) := scan_digits (tail t2) 0 0 in (true, - v, r)
                    else (false, 0, s2)
                | 43%N :: c2 :: _ =>
                    if is_digit c2 then
                      let '(v, _, r) := scan_digits (tail t2) 0 0 in (true, v, r)
                    else (false, 0, s2)
                | c2 :: _ =>
                    if is_digit c2 then
                      let '(v, _, r) := scan_digits t2 0 0 in (true, v, r)
                    else (false, 0, s2)
                | [] => (false, 0, s2)
                end
              else (false, 0, s2)
          | [] => (false, 0, s2)
          end in
        if (0 <? frac_len) || has_exp
        then Some (PFloat (float_of_decimal negative mant (e - frac_len)), s3)
        else Some (PInt (if negative then - int_part else int_part), s3)
      else None
  | [] => None
  end.

(** [d[k] = v] on a dict: a key already there keeps its place. *)
Fixpoint dict_set (d : list (str * pyval)) (k : str) (v : pyval)
  : list (str * pyval) :=
  match d with
  | [] => [(k, v)]
  | (k', v') :: d' =>
      if decide (k' = k) then (k, v) :: d' else (k', v') :: dict_set d' k v
  end.

(** What is being read: a value, the rest of an array after one of its
    values, the rest of an object after one of its values. *)
Inductive goal : Type :=
  | Value
  | ArrayRest (values : list pyval)
  | ObjectRest (pairs : list (str * pyval)).

(** The key and the colon of a member of an object. *)
Definition scan_key (s : str) : option (str * str) :=
  match s with
  | 34%N :: s1 =>
      '(k, s2) ← scanstring s1;
      match skip_ws s2 with
      | 58%N :: s3 => Some (k, skip_ws s3)
      | _ => None
      end
  | _ => None
  end.

(** The scanner.  [fuel] bounds the number of calls; every call but the
    first comes after at least one character has been read, or is the
    reading of the first value of an array or of an object. *)
Fixpoint scan (fuel : nat) (g : goal) (s : str) : option (pyval * str) :=
  match fuel with
  | O => None
  | S fuel' =>
      match g with
      | Value =>
          match s with
          | 34%N :: s' => '(t, r) ← scanstring s'; Some (PStr t, r)
          | 123%N :: s' =>
              match skip_ws s' with
              | 125%N :: r => Some (PDict [], r)
              | s1 =>
                  '(k, s2) ← scan_key s1;
                  '(v, s3) ← scan fuel' Value s2;
                  scan fuel' (ObjectRest [(k, v)]) s3
              end
          | 91%N :: s' =>
              match skip_ws s' with
              | 93%N :: r => Some (PList [], r)
              | s1 =>
                  '(v, s2) ← scan fuel' Value s1;
                  scan fuel' (ArrayRest [v]) s2
              end
          | 110%N :: 117%N :: 108%N :: 108%N :: r => Some (PNone, r)
          | 116%N :: 114%N :: 117%N :: 101%N :: r => Some (PBool true, r)
          | 102%N :: 97%N :: 108%N :: 115%N :: 101%N :: r => Some (PBool false, r)
          | 78%N :: 97%N :: 78%N :: r => Some (PFloat nan, r)
          | 73%N :: 110%N :: 102%N :: 105%N :: 110%N :: 105%N :: 116%N :: 121%N :: r =>
              Some (PFloat infinity, r)
          | 45%N :: 73%N :: 110%N :: 102%N :: 105%N :: 110%N :: 105%N :: 116%N :: 121%N :: r =>
              Some (PFloat neg_infinity, r)
          | _ => scan_number s
          end
      | ArrayRest values =>
          match skip_ws s with
          | 93%N :: r => Some (PList values, r)
          | 44%N :: s1 =>
              '(v, s2) ← scan fuel' Value (skip_ws s1);
              scan fuel' (ArrayRest (values ++ [v])) s2
          | _ => None
          end
      | ObjectRest pairs =>
          match skip_ws s with
          | 125%N :: r => Some (PDict pairs, r)
          | 44%N :: s1 =>
              '(k, s2) ← scan_key (skip_ws s1);
              '(v, s3) ← scan fuel' Value s2;
              scan fuel' (ObjectRest (dict_set pairs k v)) s3
          | _ => None
          end
      end
  end.

(** [json.loads(s)] for a [str]: one value, white space around it, and
    nothing else. *)
Definition loads (s : str) : exn + pyval :=
  match s with
  | 0xFEFF%N :: _ => inl JSONDecodeError
  | _ =>
      match scan (2 * length s + 2) Value (skip_ws s) with
      | Some (v, r) =>
          match skip_ws r with
          | [] => inr v
          | _ :: _ => inl JSONDecodeError
          end
      | None => inl JSONDecodeError
      end
  end.

End Json.

(** ** The semester of a term code *)

(** What the first statement of [scrape_courses] can raise, before any
    request is sent. *)
Inductive setup_exn : Type :=
  | IndexError      (* an index out of range *)
  | ValueError      (* [int] of a text that is no number *)
  | NoneTypeError.  (* [None + str], a [TypeError] *)

Definition TERM_WORDS : list (option str) :=
  [None; Some (lit "Spring"); Some (lit "Summer"); Some (lit "Fall")].

Section Term.

(** [unicodedata.decimal] of a character beyond ASCII, if it is a decimal
    digit: [int] reads the decimal digits of every script. *)
Variable unicode_decimal : N → option N.

(** [int(c)] for a text of the one character [c]. *)
Definition int_of_char (c : N) : setup_exn + N :=
  if (c <? 128)%N then
    if between 48 57 c then inr (c - 48)%N else inl ValueError
  else
    match unicode_decimal c with
    | Some n => inr n
    | None => inl ValueError
    end.

(** [semester = TERM_WORDS[int(term_code[-1])] + term_code[:-1]] *)
Definition semester_of (term_code : str) : setup_exn + str :=
  match last term_code with
  | None => inl IndexError
  | Some c =>
      match int_of_char c with
      | inl e => inl e
      | inr i =>
          match TERM_WORDS !! N.to_nat i with
          | None => inl IndexError
          | Some None => inl NoneTypeError
          | Some (Some word) => inr (word ++ slice None (Some (-1)) term_code)
          end
      end
  end.

End Term.

(** ** The whole run *)

Section Scrape.

Variable unicode_decimal : N → option N.
Variable unicode_isalnum : N → bool.
Variable select_table_tr : bytes → list tag_tr.
Variable net : request → nat → outcome.
Variable decode_utf8_ignore : bytes → str.
Variable json_loads : str → exn + pyval.
Variable py_str : pyval → str.

(** [scrape_courses(term_code)] up to the value of [all_courses] that it
    hands to [save_results_locally] and [save_results_csv]: an exception
    of the first statement comes before the run, which then discovers the
    departments and gets their courses. *)
Definition scrape_courses (term_code : str) : setup_exn + Run (list pyval) :=
  match semester_of unicode_decimal term_code with
  | inl e => inl e
  | inr semester =>
      inr (departments ←
             discover unicode_isalnum select_table_tr net semester MANUAL_DEPTS;
           get_courses net decode_utf8_ignore json_loads py_str term_code departments)
  end.

End Scrape.

(** ** The columns of the CSV file *)

(** [course.keys()] *)
Definition py_keys (course : pyval) : Run (list str) :=
  match course with
  | PDict d => mret (fst <$> d)
  | _ => raise AttributeError
  end.

(** The field names that [save_results_csv] gives to [csv.DictWriter],
    once it has found [data] not to be empty: [all_keys = set()], then
    [all_keys.update(course.keys())] for every course, then
    [sorted(all_keys)]. *)
Definition all_keys (data : list pyval) : Run (list str) :=
  keys ← mapM py_keys data;
  mret (sorted_set (mjoin keys)).

(** ** Notions used to state the properties *)

(** A network on which every attempt to fetch [req] raises. *)
Definition always_fails (net : request → nat → outcome) (req : request) : Prop :=
  ∀ k, ∃ e, net req k = Failure e.

(** What a run returned, if it did not raise. *)
Definition returned {A} (m : Run A) : option A :=
  match result m with
  | inr a => Some a
  | inl _ => None
  end.

(** [s] has all of [m] and something more. *)
Definition strict_superset (s m : list str) : Prop :=
  (∀ c, c ∈ m → c ∈ s) ∧ ∃ c, c ∈ s ∧ c ∉ m.

(** A department code as the pattern takes it: 2 to 6 word characters. *)
Definition code_ok (unicode_isalnum : N → bool) (c : str) : Prop :=
  (2 ≤ length c ≤ 6)%nat ∧ forallb (is_word unicode_isalnum) c = true.

(** The anchors that [parse_department_page] looks at, in the order of the
    document. *)
Definition scanned_anchors (rows : list tag_tr) : list tag_a :=
  row ← slice (Some 3) (Some (-1)) rows; find_all_a row.

(** What [fetch] returns: it never raises (see [fetch_returns]). *)
Definition fetched (net : request → nat → outcome) (req : request) (retries : Z)
  : option bytes :=
  default None (returned (fetch net req retries)).

(** A page as the two phases see it: an empty body is no page. *)
Definition blank (page : option bytes) : option bytes :=
  if falsy page then None else page.

(** The codes found on the index pages, before [sorted(set(...))]. *)
Definition found (unicode_isalnum : N → bool) (select_table_tr : bytes → list tag_tr)
    (net : request → nat → outcome) (semester : str) : list str :=
  c ← index_letters;
  page_codes unicode_isalnum select_table_tr semester (fetched net (index_request c) 3).

(** A value that cannot be iterated over. *)
Definition scalar (v : pyval) : Prop :=
  match v with
  | PNone | PBool _ | PInt _ | PFloat _ => True
  | PStr _ | PList _ | PDict _ => False
  end.

(** What the shard of one department adds to [all_courses], told from what
    its fetch returned: nothing when there is no response, when the text
    has no [[], or when what starts at the first [[] does not parse; the
    elements of the parsed list, in their order, when it parses to a list.
    The last three cases do not arise with [json.loads], which gives a
    list for a text that begins with [[]: they say what [extend] takes
    from the other values that a parser could give (the keys of a dict,
    the characters of a string, nothing from the rest, on which it
    raises). *)
Inductive shard (decode : bytes → str) (loads : str → exn + pyval)
  : option bytes → list pyval → Prop :=
  | shard_no_response page :
      falsy page = true → shard decode loads page []
  | shard_no_delimiter raw :
      raw ≠ [] → 91%N ∉ decode raw → shard decode loads (Some raw) []
  | shard_malformed raw pre rest e :
      raw ≠ [] → decode raw = pre ++ 91%N :: rest → 91%N ∉ pre →
      loads (91%N :: rest) = inl e → shard decode loads (Some raw) []
  | shard_decoded raw pre rest l :
      raw ≠ [] → decode raw = pre ++ 91%N :: rest → 91%N ∉ pre →
      loads (91%N :: rest) = inr (PList l) →
      shard decode loads (Some raw) l
  | shard_keys raw pre rest d :
      raw ≠ [] → decode raw = pre ++ 91%N :: rest → 91%N ∉ pre →
      loads (91%N :: rest) = inr (PDict d) →
      shard decode loads (Some raw) ((λ kv, PStr (fst kv)) <$> d)
  | shard_characters raw pre rest s :
      raw ≠ [] → decode raw = pre ++ 91%N :: rest → 91%N ∉ pre →
      loads (91%N :: rest) = inr (PStr s) →
      shard decode loads (Some raw) ((λ c, PStr [c]) <$> s)
  | shard_scalar raw pre rest v :
      raw ≠ [] → decode raw = pre ++ 91%N :: rest → 91%N ∉ pre →
      loads (91%N :: rest) = inr v → scalar v →
      shard decode loads (Some raw) [].

(** The bytes [garbage<<<[{"a":1}]]: byte [x22] is the double quote. *)
Definition garbage_then_payload : bytes :=
  blit "garbage<<<[{" ++ [x22; x61; x22] ++ blit ":1}]".

(** The same with bytes that are not UTF-8 thrown in: a stray [xff], a
    sequence [xe2 x82] cut short, an overlong [xc0 x80]. *)
Definition noisy_payload : bytes :=
  [xff] ++ blit "garbage" ++ [xe2; x82] ++ blit "<<<[{" ++ [x22; x61; x22]
    ++ [xc0; x80] ++ blit ":1}]".

(** The key under which the deduplication files a record, or the exception
    that comes in place of it. *)
Definition record_key (py_str : pyval → str) (c : pyval) : exn + hkey :=
  result (cid ← identity_key py_str c; hash_key cid).

Definition key_of (py_str : pyval → str) (c : pyval) : option hkey :=
  match record_key py_str c with
  | inr k => Some k
  | inl _ => None
  end.

(** A record that the deduplication can file: a dict whose key hashes. *)
Definition keyable (py_str : pyval → str) (c : pyval) : Prop :=
  is_Some (key_of py_str c).

(** The records of [cs] whose key is neither in [seen] nor the key of a
    record before them. *)
Fixpoint first_seen (key : pyval → option hkey) (seen : list hkey) (cs : list pyval)
  : list pyval :=
  match cs with
  | [] => []
  | c :: cs' =>
      match key c with
      | Some k =>
          if decide (k ∈ seen) then first_seen key seen cs'
          else c :: first_seen key (k :: seen) cs'
      | None => first_seen key seen cs'
      end
  end.

(** The field [k] of a record is there and counts as true. *)
Definition has_truthy (d : list (str * pyval)) (k : str) (v : pyval) : Prop :=
  dict_lookup d k = Some v ∧ truthy v = true.

(** The field [k] of a record is missing, or counts as false: [None],
    [False], zero, an empty string, list or dict. *)
Definition lacks (d : list (str * pyval)) (k : str) : Prop :=
  dict_lookup d k = None ∨ ∃ v, dict_lookup d k = Some v ∧ truthy v = false.

(** The requests sent, in the order of the trace. *)
Definition gets (t : list event) : list request :=
  omap (λ ev, match ev with EvGet req => Some req | EvSleep _ => None end) t.

#[global] Instance request_eq_dec : EqDecision request.
Proof. solve_decision. Defined.

(** How many times [req] was sent. *)
Definition sent (req : request) (t : list event) : nat :=
  length (filter (λ r, r = req) (gets t)).

(** One failed attempt: the request, then the pause. *)
Definition failed_round (req : request) : list event :=
  [EvGet req; EvSleep backoff].

(** The keys seen once the deduplication has gone through [cs], starting
    from the keys [seen]. *)
Fixpoint seen_after (key : pyval → option hkey) (seen : list hkey) (cs : list pyval)
  : list hkey :=
  match cs with
  | [] => seen
  | c :: cs' =>
      match key c with
      | Some k =>
          if decide (k ∈ seen) then seen_after key seen cs'
          else seen_after key (k :: seen) cs'
      | None => seen_after key seen cs'
      end
  end.

(** All the requests that a run with these departments can send. *)
Definition run_requests (term_code : str) (departments : list str) : list request :=
  (index_request <$> index_letters) ++ (shard_request term_code <$> departments).

Definition is_dict (c : pyval) : Prop := ∃ d, c = PDict d.

(** An id that is an integer or a string. *)
Definition plain_id (v : pyval) : Prop :=
  (∃ z, v = PInt z) ∨ (∃ s, v = PStr s).
(** ** Properties of [fetch] *)

Section FetchFacts.

Variable net : request → nat → outcome.

Lemma attempt_failure req k e :
  net req k = Failure e →
  attempt net req k = ([EvGet req; EvSleep backoff], inr None).
Proof. intros H. unfold attempt, session_get. simpl. rewrite H. reflexivity. Qed.

Lemma attempt_response req k status body :
  net req k = Response status body →
  attempt net req k = ([EvGet req], inr (Some body)).
Proof. intros H. unfold attempt, session_get. simpl. rewrite H. reflexivity. Qed.

(** A turn of the loop never raises: the bare [except:] catches
    everything. *)
Lemma attempt_no_raise req k : ∃ r, result (attempt net req k) = inr r.
Proof.
  destruct (net req k) as [st b|e] eqn:H.
  - rewrite (attempt_response _ _ _ _ H). eauto.
  - rewrite (attempt_failure _ _ _ H). eauto.
Qed.

Lemma fetch_loop_failing req n : ∀ k,
  always_fails net req →
  fetch_loop net req k n =
    (mjoin (replicate n [EvGet req; EvSleep backoff]), inr None).
Proof.
  induction n as [|n IH]; intros k Hf; [reflexivity|].
  destruct (Hf k) as [e He].
  change (fetch_loop net req k (S n)) with
    (r ← attempt net req k;
     match r with
     | Some body => mret (Some body)
     | None => fetch_loop net req (S k) n
     end).
  rewrite (attempt_failure _ _ _ He). simpl.
  rewrite (IH (S k) Hf). reflexivity.
Qed.

(** [fetch] never lets an exception through. *)
Lemma fetch_loop_no_raise req n : ∀ k,
  ∃ r, result (fetch_loop net req k n) = inr r.
Proof.
  induction n as [|n IH]; intros k; [by eexists|].
  change (fetch_loop net req k (S n)) with
    (r ← attempt net req k;
     match r with
     | Some body => mret (Some body)
     | None => fetch_loop net req (S k) n
     end).
  destruct (net req k) as [st b|e] eqn:H.
  - rewrite (attempt_response _ _ _ _ H). by eexists.
  - rewrite (attempt_failure _ _ _ H). simpl.
    destruct (IH (S k)) as [r Hr].
    destruct (fetch_loop net req (S k) n) as [t [e'|v]]; simpl in *; [done|].
    by eexists.
Qed.

Lemma fetch_no_raise req retries : ∃ r, result (fetch net req retries) = inr r.
Proof. apply fetch_loop_no_raise. Qed.

End FetchFacts.

Lemma attempts_rounds req n :
  attempts (mjoin (replicate n [EvGet req; EvSleep backoff])) = n.
Proof. induction n as [|n IH]; [done|]. unfold attempts in *. simpl. by rewrite IH. Qed.

Lemma delays_rounds req n :
  delays (mjoin (replicate n [EvGet req; EvSleep backoff])) = n.
Proof. induction n as [|n IH]; [done|]. unfold delays in *. simpl. by rewrite IH. Qed.

Lemma last_rounds req n :
  last (mjoin (replicate (S n) [EvGet req; EvSleep backoff])) = Some (EvSleep backoff).
Proof.
  induction n as [|n IH]; [done|].
  change (mjoin (replicate (S (S n)) [EvGet req; EvSleep backoff]))
    with ([EvGet req; EvSleep backoff]
            ++ mjoin (replicate (S n) [EvGet req; EvSleep backoff])).
  rewrite last_app, IH. done.
Qed.

(** C1, as amended.  On a network where every attempt at [req] raises,
    [fetch] sends the request [retries] times (not at all when [retries] is
    negative) and returns [None]: the failure is a return value, no
    exception gets out.  It pauses for the fixed delay after every failed
    attempt, the last one included: as many pauses as attempts, and the run
    ends on a pause. *)
Theorem fetch_exhausted (net : request → nat → outcome) (req : request) (retries : Z) :
  always_fails net req →
  let run := fetch net req retries in
  result run = inr None ∧
  trace run = mjoin (replicate (Z.to_nat retries) [EvGet req; EvSleep backoff]) ∧
  attempts (trace run) = Z.to_nat retries ∧
  delays (trace run) = Z.to_nat retries ∧
  (0 < retries → last (trace run) = Some (EvSleep backoff)).
Proof.
  intros Hf run. subst run. unfold fetch.
  rewrite (fetch_loop_failing net req (Z.to_nat retries) 0 Hf).
  unfold result, trace. simpl.
  split; [done|]. split; [done|].
  split; [apply attempts_rounds|]. split; [apply delays_rounds|].
  intros Hpos. destruct (Z.to_nat retries) as [|n] eqn:Hn; [lia|].
  apply last_rounds.
Qed.

Lemma fetch_exhausted_witness :
  always_fails (λ _ _, Failure TransportError) (Request (lit "http://example.org/") None) ∧
  result (fetch (λ _ _, Failure TransportError) (Request (lit "http://example.org/") None) 3)
    = inr None ∧
  delays (trace (fetch (λ _ _, Failure TransportError)
                   (Request (lit "http://example.org/") None) 3)) = 3%nat.
Proof.
  assert (H : always_fails (λ _ _, Failure TransportError)
                (Request (lit "http://example.org/") None)).
  { intros k. exists TransportError. reflexivity. }
  split; [exact H|].
  pose proof (fetch_exhausted _ _ 3 H) as (Hr & _ & _ & Hd & _).
  split; [exact Hr|exact Hd].
Defined.

(** C1 as stated fails: with three attempts that all raise, [fetch] pauses
    three times, not twice, and the last thing it does is to pause. *)
Lemma fetch_pauses_after_final_attempt :
  let run := fetch (λ _ _, Failure TransportError)
               (Request (lit "http://example.org/") None) 3 in
  result run = inr None ∧
  attempts (trace run) = 3%nat ∧
  delays (trace run) = 3%nat ∧
  delays (trace run) ≠ (3 - 1)%nat ∧
  last (trace run) = Some (EvSleep backoff).
Proof. vm_compute. repeat split; try reflexivity. discriminate. Qed.

(** C9.  [fetch] does not look at the status code.  When the first attempt
    gets a response, whatever its status (404 and 500 as well as 200),
    [fetch] returns the body of that response after this one request, with
    no pause and no further attempt.  A second attempt is made only when the
    first one raised. *)
Theorem fetch_status_blind (net : request → nat → outcome) (req : request) (retries : Z) :
  0 < retries →
  (∀ status body, net req 0%nat = Response status body →
     fetch net req retries = ([EvGet req], inr (Some body))) ∧
  ((1 < attempts (trace (fetch net req retries)))%nat →
     ∃ e, net req 0%nat = Failure e).
Proof.
  intros Hpos. unfold fetch.
  destruct (Z.to_nat retries) as [|n] eqn:Hn; [lia|].
  change (fetch_loop net req 0 (S n)) with
    (r ← attempt net req 0;
     match r with
     | Some body => mret (Some body)
     | None => fetch_loop net req 1 n
     end).
  split.
  - intros status body H. rewrite (attempt_response _ _ _ _ _ H). reflexivity.
  - destruct (net req 0%nat) as [st b|e] eqn:H; [|eauto].
    rewrite (attempt_response _ _ _ _ _ H). unfold attempts. simpl. lia.
Qed.

Lemma fetch_status_blind_witness :
  fetch (λ _ _, Response 404 (blit "Not Found"))
    (Request (lit "http://example.org/") None) 3
  = ([EvGet (Request (lit "http://example.org/") None)], inr (Some (blit "Not Found"))).
Proof.
  apply (fetch_status_blind (λ _ _, Response 404 (blit "Not Found"))
           (Request (lit "http://example.org/") None) 3 eq_refl) with (status := 404).
  reflexivity.
Defined.
(** ** Facts on slices, searches and [sorted(set(...))] *)

Lemma starts_with_spec (p s : str) :
  starts_with p s = true ↔ ∃ rest, s = p ++ rest.
Proof.
  revert s. induction p as [|x p IH]; intros s; simpl.
  - split; [intros _; by exists s|done].
  - destruct s as [|y s].
    + split; [done|]. by intros [rest ?].
    + rewrite andb_true_iff, N.eqb_eq, IH. split.
      * intros [-> [rest ->]]. by exists rest.
      * intros [rest H]. injection H as -> ->. eauto.
Qed.

Lemma find_char_None c s : find_char c s = None ↔ c ∉ s.
Proof.
  induction s as [|x s IH]; simpl.
  - split; [intros _; apply not_elem_of_nil|done].
  - rewrite not_elem_of_cons. destruct (N.eqb_spec x c) as [->|Hne].
    + split; [done|]. by intros [? _].
    + destruct (find_char c s); simpl.
      * split; [done|]. intros [_ H]. by apply IH in H.
      * split; [|done]. intros _. split; [congruence|]. by apply IH.
Qed.

(** [find] returns the offset of the first occurrence. *)
Lemma find_char_Some c s i :
  find_char c s = Some i ↔ ∃ rest, s = take i s ++ c :: rest ∧ c ∉ take i s.
Proof.
  revert i. induction s as [|x s IH]; intros i; simpl.
  - split; [done|]. intros [rest [H _]]. by destruct i.
  - destruct (N.eqb_spec x c) as [->|Hne].
    + split.
      * intros [= <-]. exists s. split; [done|apply not_elem_of_nil].
      * intros [rest [H Hn]]. destruct i as [|i]; [done|].
        exfalso. apply Hn. simpl. left.
    + split.
      * destruct (find_char c s) as [j|] eqn:Hj; [|done].
        intros [= <-]. destruct (proj1 (IH j) eq_refl) as [rest [H Hn]].
        exists rest. simpl. split; [by rewrite <- H|].
        rewrite not_elem_of_cons. split; [congruence|done].
      * intros [rest [H Hn]]. destruct i as [|i]; simpl in *.
        { injection H as ? _. congruence. }
        injection H as H. apply not_elem_of_cons in Hn as [_ Hn].
        rewrite (proj2 (IH i)); [done|]. eauto.
Qed.

(** [l[3:-1]] drops the first three elements and the last one. *)
Lemma slice_3_m1 {A} (l : list A) :
  slice (Some 3) (Some (-1)) l = take (length l - 1 - 3) (drop 3 l).
Proof.
  unfold slice, slice_index.
  change (3 <? 0) with false. change (-1 <? 0) with true. cbv iota.
  destruct (decide (length l < 3)%nat) as [Hlt|Hge].
  - rewrite !(drop_ge l) by lia. by rewrite !take_nil.
  - f_equal; [lia|]. f_equal. lia.
Qed.



Lemma str_leb_total (a b : str) : str_leb a b = true ∨ str_leb b a = true.
Proof.
  revert b. induction a as [|x a IH]; intros [|y b]; simpl; auto.
  destruct (N.ltb_spec x y), (N.ltb_spec y x), (N.eqb_spec x y), (N.eqb_spec y x);
    auto; lia.
Qed.

Lemma str_leb_trans (a b c : str) :
  str_leb a b = true → str_leb b c = true → str_leb a c = true.
Proof.
  revert b c. induction a as [|x a IH]; intros [|y b] [|z c]; simpl; auto; try done.
  destruct (N.ltb_spec x y), (N.ltb_spec y z), (N.ltb_spec x z),
    (N.eqb_spec x y), (N.eqb_spec y z), (N.eqb_spec x z);
    auto; try done; try lia.
  apply IH.
Qed.

#[global] Instance str_le_total : Total str_le.
Proof. intros a b. apply str_leb_total. Qed.

#[global] Instance str_le_trans : Transitive str_le.
Proof. intros a b c. apply str_leb_trans. Qed.

Lemma elem_of_sorted_set (l : list str) (c : str) : c ∈ sorted_set l ↔ c ∈ l.
Proof.
  unfold sorted_set. rewrite merge_sort_Permutation. apply elem_of_remove_dups.
Qed.

Lemma NoDup_sorted_set (l : list str) : NoDup (sorted_set l).
Proof.
  unfold sorted_set. rewrite merge_sort_Permutation. apply NoDup_remove_dups.
Qed.

Lemma Sorted_sorted_set (l : list str) : StronglySorted str_le (sorted_set l).
Proof. unfold sorted_set. apply StronglySorted_merge_sort; apply _. Qed.

(** ** Facts on the pattern and on [parse_department_page] *)

Lemma starts_with_length (p s : str) :
  starts_with p s = true → (length p ≤ length s)%nat.
Proof. rewrite starts_with_spec. intros [rest ->]. rewrite length_app. lia. Qed.


Lemma list_bind_bind {A B C} (f : A → list B) (g : B → list C) (l : list A) :
  (l ≫= f) ≫= g = l ≫= (λ x, f x ≫= g).
Proof.
  induction l as [|x l IH]; [done|].
  change ((x :: l) ≫= f) with (f x ++ (l ≫= f)).
  rewrite bind_app, IH. done.
Qed.

Section IndexParserFacts.

Variable unicode_isalnum : N → bool.
Variable select_table_tr : bytes → list tag_tr.

Lemma match_width_Some sem s n g :
  match_width unicode_isalnum sem s n = Some g ↔
  length g = n ∧ forallb (is_word unicode_isalnum) g = true ∧
  ∃ rest, s = g ++ after_group sem ++ rest.
Proof.
  unfold match_width. split.
  - destruct (length (take n s) =? n)%nat eqn:Hl; [|done].
    destruct (forallb (is_word unicode_isalnum) (take n s)) eqn:Hw; [|done].
    destruct (starts_with (after_group sem) (drop n s)) eqn:Hs; [|done].
    cbn [andb]. intros [= <-]. apply Nat.eqb_eq in Hl.
    apply starts_with_spec in Hs as [rest Hs].
    split; [done|]. split; [done|]. exists rest.
    rewrite <- Hs. by rewrite take_drop.
  - intros (Hl & Hw & rest & ->).
    rewrite (take_app_length' g _ n) by done.
    rewrite (drop_app_length' g _ n) by done.
    rewrite Hl, Nat.eqb_refl, Hw. cbn [andb].
    rewrite (proj2 (starts_with_spec _ _)) by eauto. done.
Qed.


Lemma first_width_Some sem s ws g :
  first_width unicode_isalnum sem s ws = Some g →
  ∃ n, n ∈ ws ∧ match_width unicode_isalnum sem s n = Some g.
Proof.
  induction ws as [|n ws IH]; simpl; [done|].
  destruct (match_width unicode_isalnum sem s n) as [g'|] eqn:H.
  - intros [= <-]. exists n. split; [left|done].
  - intros Hg. destruct (IH Hg) as (m & Hm & Hw). exists m. split; [by right|done].
Qed.


Lemma widths_range (n : nat) : n ∈ [6; 5; 4; 3; 2]%nat ↔ (2 ≤ n ≤ 6)%nat.
Proof. rewrite !elem_of_cons, elem_of_nil. lia. Qed.

Lemma match_here_Some sem s g :
  match_here unicode_isalnum sem s = Some g →
  code_ok unicode_isalnum g ∧ ∃ rest, s = 47%N :: g ++ after_group sem ++ rest.
Proof.
  destruct s as [|c s]; [done|]. unfold match_here.
  destruct (N.eqb_spec c 47) as [->|]; [|done].
  intros (n & Hn & Hw)%first_width_Some.
  apply match_width_Some in Hw as (Hl & Hword & rest & ->).
  split; [|by exists rest]. split; [|done].
  rewrite Hl. by apply widths_range.
Qed.



Lemma search_Some sem href g :
  search unicode_isalnum sem href = Some g →
  code_ok unicode_isalnum g ∧
  ∃ pre post, href = pre ++ 47%N :: g ++ after_group sem ++ post.
Proof.
  induction href as [|c href IH].
  - simpl. done.
  - change (search unicode_isalnum sem (c :: href)) with
      (match match_here unicode_isalnum sem (c :: href) with
       | Some g => Some g
       | None => search unicode_isalnum sem href
       end).
    destruct (match_here unicode_isalnum sem (c :: href)) as [g'|] eqn:H.
    + intros [= <-]. apply match_here_Some in H as [Hok [rest Hr]].
      split; [done|]. exists [], rest. done.
    + intros Hs. destruct (IH Hs) as [Hok (pre & post & ->)].
      split; [done|]. exists (c :: pre), post. done.
Qed.










Lemma elem_of_anchor_codes sem a c :
  c ∈ anchor_codes unicode_isalnum sem a ↔
  search unicode_isalnum sem (get_href a) = Some c.
Proof.
  unfold anchor_codes. destruct (search _ _ _) as [g|].
  - rewrite list_elem_of_singleton. split; [by intros ->|by intros [= ->]].
  - split; [by intros ?%elem_of_nil|done].
Qed.

Lemma parse_department_page_bind html sem :
  parse_department_page unicode_isalnum select_table_tr html sem =
  scanned_anchors (select_table_tr html) ≫= anchor_codes unicode_isalnum sem.
Proof. unfold parse_department_page, scanned_anchors. by rewrite list_bind_bind. Qed.


End IndexParserFacts.

(** ** Facts on runs *)

Lemma run_bind_assoc {A B C} (m : Run A) (f : A → Run B) (g : B → Run C) :
  (m ≫= f) ≫= g = m ≫= (λ a, f a ≫= g).
Proof.
  destruct m as [t [e|a]]; [done|]. simpl.
  destruct (f a) as [t1 [e|b]]; [done|]. simpl.
  destruct (g b) as [t2 r]. by rewrite app_assoc.
Qed.

Lemma run_bind_ret {A B} (a : A) (f : A → Run B) : mret a ≫= f = f a.
Proof. simpl. by destruct (f a). Qed.

Lemma returned_Some {A} (m : Run A) (a : A) :
  returned m = Some a ↔ result m = inr a.
Proof.
  unfold returned. destruct (result m); split; intros H; by simplify_eq.
Qed.

Lemma returned_ret {A} (a : A) : returned (mret a) = Some a.
Proof. done. Qed.

Lemma returned_bind {A B} (m : Run A) (f : A → Run B) :
  returned (m ≫= f) = returned m ≫= (λ a, returned (f a)).
Proof.
  destruct m as [t [e|a]]; [done|]. unfold returned, result. simpl.
  by destruct (f a) as [t1 [e|b]].
Qed.

Lemma trace_bind {A B} (m : Run A) (f : A → Run B) (a : A) :
  result m = inr a → trace (m ≫= f) = trace m ++ trace (f a).
Proof.
  destruct m as [t [e|a']]; [done|]. unfold result, trace. simpl.
  intros [= ->]. by destruct (f a).
Qed.

Lemma returned_mapM {A B} (f : A → Run B) (g : A → B) (l : list A) :
  (∀ x, returned (f x) = Some (g x)) →
  returned (mapM f l) = Some (g <$> l).
Proof.
  intros Hf. induction l as [|x l IH]; [done|].
  change (mapM f (x :: l)) with (y ← f x; k ← mapM f l; mret (y :: k)).
  rewrite returned_bind, Hf. simpl.
  rewrite returned_bind, IH. done.
Qed.

Lemma fetch_returns net req retries :
  returned (fetch net req retries) = Some (fetched net req retries).
Proof.
  unfold fetched. destruct (fetch_no_raise net req retries) as [r Hr].
  apply returned_Some in Hr. by rewrite Hr.
Qed.

(** ** Facts on the discovery *)

Section DiscoveryFacts.

Variable unicode_isalnum : N → bool.
Variable select_table_tr : bytes → list tag_tr.

Lemma get_departments_returns net semester :
  returned (get_departments unicode_isalnum select_table_tr net semester)
  = Some (sorted_set (found unicode_isalnum select_table_tr net semester)).
Proof.
  unfold get_departments. rewrite returned_bind.
  rewrite (returned_mapM _ (λ c, fetched net (index_request c) 3))
    by (intros c; apply fetch_returns).
  change (Some ?x ≫= ?f) with (f x). cbv beta. rewrite returned_ret.
  by rewrite list_fmap_bind.
Qed.

Lemma discover_returns net semester manual :
  returned (discover unicode_isalnum select_table_tr net semester manual)
  = Some (sorted_set (sorted_set (found unicode_isalnum select_table_tr net semester) ++ manual)).
Proof.
  unfold discover. rewrite returned_bind, get_departments_returns.
  change (Some ?x ≫= ?f) with (f x). cbv beta. by rewrite returned_ret.
Qed.

(** An empty page gives no code, like a page that did not come. *)
Lemma page_codes_blank semester page :
  page_codes unicode_isalnum select_table_tr semester (blank page)
  = page_codes unicode_isalnum select_table_tr semester page.
Proof. by destruct page as [[|b raw]|]. Qed.

Lemma found_blank net1 net2 semester :
  (∀ req, blank (fetched net1 req 3) = blank (fetched net2 req 3)) →
  found unicode_isalnum select_table_tr net1 semester
  = found unicode_isalnum select_table_tr net2 semester.
Proof.
  intros H. unfold found.
  generalize index_letters. intros l. induction l as [|c l IH]; [done|].
  change ((c :: l) ≫= ?f) with (f c ++ (l ≫= f)).
  rewrite IH. f_equal.
  rewrite <- (page_codes_blank _ (fetched net1 _ _)), H.
  apply page_codes_blank.
Qed.

End DiscoveryFacts.

(** C2, as amended.  Whatever the manual list, the index pages and the
    outcome of the fetches, the discovery does not raise, and the
    departments it gives are a superset of the manual list, not
    necessarily a strict one: they are the manual codes and the codes found
    on the pages, without repetition, in increasing order. *)
Theorem discover_includes_manual
    (unicode_isalnum : N → bool) (select_table_tr : bytes → list tag_tr)
    (net : request → nat → outcome) (semester : str) (manual : list str) :
  ∃ departments,
    result (discover unicode_isalnum select_table_tr net semester manual)
      = inr departments ∧
    (∀ c, c ∈ manual → c ∈ departments) ∧
    (∀ c, c ∈ departments ↔
       c ∈ manual ∨ c ∈ found unicode_isalnum select_table_tr net semester) ∧
    NoDup departments ∧
    StronglySorted str_le departments.
Proof.
  eexists. split.
  { apply returned_Some, discover_returns. }
  split.
  { intros c Hc. rewrite elem_of_sorted_set, elem_of_app. by right. }
  split.
  { intros c. rewrite elem_of_sorted_set, elem_of_app, elem_of_sorted_set. tauto. }
  split; [apply NoDup_sorted_set|apply Sorted_sorted_set].
Qed.

(** C2 as stated fails: when every fetch of an index page fails, the
    departments are the manual ones and nothing more, so they are not a
    strict superset of the manual list. *)
Lemma discover_all_fetches_failing :
  ∃ departments,
    result (discover (λ _, false) (λ _, []) (λ _ _, Failure TransportError)
              (lit "Fall2025") MANUAL_DEPTS) = inr departments ∧
    departments = [lit "GUHIS"; lit "HIST"; lit "UNHI"; lit "UNHS"] ∧
    ¬ strict_superset departments MANUAL_DEPTS.
Proof.
  eexists. split; [vm_compute; reflexivity|]. split; [reflexivity|].
  intros [_ (c & Hin & Hout)]. apply Hout.
  unfold MANUAL_DEPTS. rewrite !elem_of_cons in *.
  rewrite elem_of_nil in Hin. tauto.
Qed.

(** ** What [parse_department_page] returns *)




(** ** Facts on the harvest *)

Lemma result_bind {A B} (m : Run A) (f : A → Run B) :
  result (m ≫= f) =
    match result m with
    | inl e => inl e
    | inr a => result (f a)
    end.
Proof.
  destruct m as [t [e|a]]; [done|]. unfold result. simpl. by destruct (f a).
Qed.

Lemma trace_bind_raise {A B} (m : Run A) (f : A → Run B) e :
  result m = inl e → trace (m ≫= f) = trace m.
Proof. destruct m as [t [e'|a]]; [done|]. by unfold result. Qed.

(** The text splits at its first [[] in one way only. *)
Lemma first_split_unique (c : N) (pre pre' rest rest' : str) :
  pre ++ c :: rest = pre' ++ c :: rest' → c ∉ pre → c ∉ pre' →
  pre = pre' ∧ rest = rest'.
Proof.
  revert pre'. induction pre as [|x pre IH]; intros [|y pre']; simpl.
  - by intros [= ->].
  - intros [= <- _] _ Hn. exfalso. apply Hn. left.
  - intros [= -> _] Hn _. exfalso. apply Hn. left.
  - intros [= -> H] Hn Hn'.
    apply not_elem_of_cons in Hn as [_ Hn]. apply not_elem_of_cons in Hn' as [_ Hn'].
    destruct (IH pre' H Hn Hn') as [-> ->]. done.
Qed.

Lemma find_char_split (c : N) (s : str) (i : nat) :
  find_char c s = Some i →
  ∃ pre rest, s = pre ++ c :: rest ∧ (c ∉ pre) ∧ drop i s = c :: rest.
Proof.
  intros (rest & Hs & Hn)%find_char_Some.
  exists (take i s), rest. split; [done|]. split; [done|].
  rewrite <- (take_drop i s) in Hs at 1.
  by apply app_inv_head in Hs.
Qed.

Section HarvestFacts.

Variable net : request → nat → outcome.
Variable decode_utf8_ignore : bytes → str.
Variable json_loads : str → exn + pyval.

Lemma py_iter_trace (v : pyval) : trace (py_iter v) = [].
Proof. by destruct v. Qed.

(** What the [try] block of the loop body comes to. *)
Lemma try_block (acc : list pyval) (text : str) :
  try_except
    (data ← lift (json_loads text); new ← py_iter data; mret (acc ++ new))
    (λ _, mret acc)
  = ([], inr (match json_loads text with
              | inl _ => acc
              | inr v => match result (py_iter v) with
                         | inl _ => acc
                         | inr l => acc ++ l
                         end
              end)).
Proof.
  unfold lift. destruct (json_loads text) as [e|v]; [done|].
  simpl. by destruct v.
Qed.

Lemma extract_shard (acc : list pyval) (raw : bytes) :
  raw ≠ [] →
  ∃ l, shard decode_utf8_ignore json_loads (Some raw) l ∧
       extract decode_utf8_ignore json_loads acc raw = ([], inr (acc ++ l)).
Proof.
  intros Hraw. unfold extract.
  destruct (find_char 91 (decode_utf8_ignore raw)) as [i|] eqn:Hfind.
  - apply find_char_split in Hfind as (pre & rest & Hs & Hn & ->).
    rewrite try_block.
    destruct (json_loads (91%N :: rest)) as [e|v] eqn:Hl.
    { exists []. rewrite app_nil_r. split; [|done]. by eapply shard_malformed. }
    destruct v as [|b|z|f|s|l|d]; unfold result; simpl snd.
    + exists []. rewrite app_nil_r. split; [|done]. by eapply shard_scalar.
    + exists []. rewrite app_nil_r. split; [|done]. by eapply shard_scalar.
    + exists []. rewrite app_nil_r. split; [|done]. by eapply shard_scalar.
    + exists []. rewrite app_nil_r. split; [|done]. by eapply shard_scalar.
    + eexists. split; [|done]. by eapply shard_characters.
    + exists l. split; [|done]. by eapply shard_decoded.
    + eexists. split; [|done]. by eapply shard_keys.
  - apply find_char_None in Hfind.
    exists []. rewrite app_nil_r. split; [|done]. by apply shard_no_delimiter.
Qed.

Lemma harvest_one_shard (term_code : str) (acc : list pyval) (dept : str) :
  ∃ l,
    shard decode_utf8_ignore json_loads
      (fetched net (shard_request term_code dept) 3) l ∧
    harvest_one net decode_utf8_ignore json_loads term_code acc dept
    = (trace (fetch net (shard_request term_code dept) 3), inr (acc ++ l)).
Proof.
  unfold harvest_one.
  pose proof (fetch_returns net (shard_request term_code dept) 3) as Hf.
  apply returned_Some in Hf.
  destruct (fetch net (shard_request term_code dept) 3) as [t [e|page]];
    unfold result, trace in *; simpl in Hf; [done|].
  injection Hf as <-. simpl.
  destruct page as [[|b raw]|]; simpl.
  - exists []. rewrite !app_nil_r. split; [by apply shard_no_response|done].
  - destruct (extract_shard acc (b :: raw)) as (l & Hs & ->); [done|].
    exists l. rewrite app_nil_r. done.
  - exists []. rewrite !app_nil_r. split; [by apply shard_no_response|done].
Qed.

Lemma harvest_loop_shards (term_code : str) (departments : list str) :
  ∀ acc, ∃ parts,
    Forall2 (λ dept l,
      shard decode_utf8_ignore json_loads
        (fetched net (shard_request term_code dept) 3) l) departments parts ∧
    for_each (harvest_one net decode_utf8_ignore json_loads term_code) acc departments
    = (departments ≫= (λ dept, trace (fetch net (shard_request term_code dept) 3)),
       inr (acc ++ mjoin parts)).
Proof.
  induction departments as [|dept departments IH]; intros acc.
  - exists []. split; [constructor|]. simpl. by rewrite app_nil_r.
  - destruct (harvest_one_shard term_code acc dept) as (l & Hl & Hone).
    destruct (IH (acc ++ l)) as (parts & Hparts & Hloop).
    exists (l :: parts). split; [by constructor|].
    change (for_each ?f acc (dept :: departments)) with
      (acc' ← f acc dept; for_each f acc' departments).
    rewrite Hone. simpl. rewrite Hloop. by rewrite app_assoc.
Qed.

(** The shard relation gives one list only. *)
Lemma shard_functional page l1 l2 :
  shard decode_utf8_ignore json_loads page l1 →
  shard decode_utf8_ignore json_loads page l2 → l1 = l2.
Proof.
  intros H1 H2.
  destruct H1; inversion H2; subst; try done;
    try (by match goal with H : ?r ≠ [], F : falsy (Some ?r) = true |- _ =>
              destruct r end);
    try (exfalso; match goal with
         | H : 91%N ∉ decode_utf8_ignore ?r, H' : decode_utf8_ignore ?r = _ |- _ =>
             apply H; rewrite H'; apply elem_of_app; right; left
         end);
    match goal with
    | Hs : decode_utf8_ignore ?r = ?p ++ 91%N :: ?t,
      Hs' : decode_utf8_ignore ?r = ?p' ++ 91%N :: ?t',
      Hn : 91%N ∉ ?p, Hn' : 91%N ∉ ?p' |- _ =>
        rewrite Hs in Hs';
        destruct (first_split_unique _ _ _ _ _ Hs' Hn Hn') as [-> ->]
    end;
    match goal with
    | Ha : json_loads ?x = _, Hb : json_loads ?x = _ |- _ =>
        rewrite Ha in Hb; simplify_eq
    end;
    simpl in *; done.
Qed.

(** An empty body adds what a missing response adds: nothing. *)
Lemma shard_blank page l :
  shard decode_utf8_ignore json_loads page l ↔
  shard decode_utf8_ignore json_loads (blank page) l.
Proof.
  unfold blank. destruct (falsy page) eqn:Hf; [|done]. split.
  - intros H. destruct H; try (by destruct raw).
    by apply shard_no_response.
  - intros H. inversion H; subst. by apply shard_no_response.
Qed.

End HarvestFacts.

Lemma shards_blank (net1 net2 : request → nat → outcome) (decode : bytes → str)
    (loads : str → exn + pyval) (term_code : str) (departments : list str) :
  (∀ req, blank (fetched net1 req 3) = blank (fetched net2 req 3)) →
  ∀ parts1 parts2,
  Forall2 (λ dept l,
    shard decode loads (fetched net1 (shard_request term_code dept) 3) l)
    departments parts1 →
  Forall2 (λ dept l,
    shard decode loads (fetched net2 (shard_request term_code dept) 3) l)
    departments parts2 →
  parts1 = parts2.
Proof.
  intros Hb parts1 parts2 H1. revert parts2.
  induction H1 as [|dept l1 departments parts1 Hl1 _ IH]; intros parts2 H2.
  - by inversion H2.
  - inversion H2 as [|? l2 ? parts2' Hl2 H2']; subst. f_equal; [|by apply IH].
    apply shard_blank in Hl1. rewrite Hb in Hl1. apply shard_blank in Hl1.
    by eapply shard_functional.
Qed.

Lemma harvest_isolates_parts
    (net : request → nat → outcome) (decode : bytes → str)
    (loads : str → exn + pyval) (term_code : str) (departments : list str) :
  ∃ parts,
    Forall2 (λ dept l,
      shard decode loads (fetched net (shard_request term_code dept) 3) l)
      departments parts ∧
    result (harvest net decode loads term_code departments) = inr (mjoin parts).
Proof.
  destruct (harvest_loop_shards net decode loads term_code departments [])
    as (parts & Hparts & Hrun).
  exists parts. unfold harvest. rewrite Hrun. done.
Qed.

(** The reference decoder leaves ASCII text as it is. *)
Lemma decode_ignore_ascii (raw : bytes) :
  Forall (λ b, (Byte.to_N b < 128)%N) raw →
  Utf8.decode_ignore raw = Byte.to_N <$> raw.
Proof.
  unfold Utf8.decode_ignore. induction 1 as [|b raw Hb _ IH]; [done|].
  simpl. unfold Utf8.start.
  destruct (N.ltb_spec (Byte.to_N b) 128) as [_|Hge]; [|lia].
  simpl. by rewrite IH.
Qed.

(** ** Facts on the deduplication *)

Lemma run_bind_ext {A B} (m : Run A) (f g : A → Run B) :
  (∀ a, f a = g a) → m ≫= f = m ≫= g.
Proof. intros H. destruct m as [t [e|a]]; [done|]. simpl. by rewrite H. Qed.

Lemma run_bind_pure {A B} (a : A) (f : A → Run B) :
  (([], inr a) : Run A) ≫= f = f a.
Proof. apply run_bind_ret. Qed.

Lemma for_each_cons {A B} (f : B → A → Run B) (acc : B) (x : A) (l : list A) :
  for_each f acc (x :: l) = acc' ← f acc x; for_each f acc' l.
Proof. done. Qed.

Lemma for_each_app {A B} (f : B → A → Run B) (l1 l2 : list A) : ∀ acc,
  for_each f acc (l1 ++ l2) = acc' ← for_each f acc l1; for_each f acc' l2.
Proof.
  induction l1 as [|x l1 IH]; intros acc.
  - simpl app. change (for_each f acc []) with (mret acc : Run B).
    by rewrite run_bind_ret.
  - simpl app. rewrite !for_each_cons, run_bind_assoc.
    apply run_bind_ext. intros acc'. apply IH.
Qed.

Section FirstSeen.

Variable key : pyval → option hkey.

Lemma first_seen_sublist cs : ∀ seen, first_seen key seen cs `sublist_of` cs.
Proof.
  induction cs as [|c cs IH]; intros seen; simpl; [done|].
  destruct (key c) as [k|]; [|by apply sublist_cons].
  case_decide; [by apply sublist_cons|by apply sublist_skip].
Qed.

Lemma first_seen_fresh cs : ∀ seen c,
  c ∈ first_seen key seen cs → ∃ k, key c = Some k ∧ k ∉ seen.
Proof.
  induction cs as [|c0 cs IH]; intros seen c; simpl; [by intros ?%elem_of_nil|].
  destruct (key c0) as [k0|] eqn:Hk0; [|by apply IH].
  case_decide as Hin; [by apply IH|].
  intros [->|Hc]%elem_of_cons; [eauto|].
  destruct (IH _ _ Hc) as (k & Hk & Hn). exists k. split; [done|].
  by apply not_elem_of_cons in Hn as [_ Hn].
Qed.

Lemma first_seen_NoDup cs : ∀ seen, NoDup (key <$> first_seen key seen cs).
Proof.
  induction cs as [|c0 cs IH]; intros seen; simpl; [constructor|].
  destruct (key c0) as [k0|] eqn:Hk0; [|by apply IH].
  case_decide as Hin; [by apply IH|].
  rewrite fmap_cons. constructor; [|by apply IH].
  intros (c & Hc & Hin')%list_elem_of_fmap.
  destruct (first_seen_fresh _ _ _ Hin') as (k & Hk & Hn).
  apply Hn. rewrite Hk0, Hk in Hc. injection Hc as ->. left.
Qed.



Lemma first_seen_idemp cs : ∀ seen,
  first_seen key seen (first_seen key seen cs) = first_seen key seen cs.
Proof.
  induction cs as [|c0 cs IH]; intros seen; simpl; [done|].
  destruct (key c0) as [k0|] eqn:Hk0; [|by apply IH].
  case_decide as Hin; [by apply IH|].
  simpl. rewrite Hk0, decide_False by done. by rewrite IH.
Qed.


End FirstSeen.

Section DedupeFacts.

Variable py_str : pyval → str.

Lemma hash_key_trace (v : pyval) : trace (hash_key v) = [].
Proof. by destruct v. Qed.

(** The key of a dict, by the truth of its two fields. *)
Lemma identity_key_dict (d : list (str * pyval)) :
  identity_key py_str (PDict d) =
    mret (let a := default PNone (dict_lookup d (lit "id")) in
          let b := default PNone (dict_lookup d (lit "CourseNumber")) in
          if truthy a then a else if truthy b then b else PStr (py_str (PDict d))).
Proof.
  unfold identity_key, py_get. rewrite run_bind_ret. cbv zeta.
  destruct (truthy (default PNone (dict_lookup d (lit "id")))); [done|].
  rewrite run_bind_ret.
  by destruct (truthy (default PNone (dict_lookup d (lit "CourseNumber")))).
Qed.

(** Computing the key of a record leaves no trace. *)
Lemma key_run (c : pyval) :
  (cid ← identity_key py_str c; hash_key cid) = ([], record_key py_str c).
Proof.
  unfold record_key. destruct c as [| | | | | |d]; try done.
  rewrite identity_key_dict, run_bind_ret.
  pose proof (hash_key_trace
    (let a := default PNone (dict_lookup d (lit "id")) in
     let b := default PNone (dict_lookup d (lit "CourseNumber")) in
     if truthy a then a else if truthy b then b else PStr (py_str (PDict d)))) as Ht.
  destruct (hash_key _) as [t r]. unfold trace, result in *. simpl in *. by subst.
Qed.

Lemma dedupe_one_eq (seen : list hkey) (deduped : list pyval) (c : pyval) :
  dedupe_one py_str (seen, deduped) c =
    match record_key py_str c with
    | inl e => ([], inl e)
    | inr k =>
        if decide (k ∈ seen) then ([], inr (seen, deduped))
        else ([], inr (k :: seen, deduped ++ [c]))
    end.
Proof.
  unfold dedupe_one.
  rewrite <- (run_bind_assoc (identity_key py_str c) hash_key).
  rewrite key_run. destruct (record_key py_str c) as [e|k]; [done|].
  simpl. by case_decide.
Qed.

Lemma dedupe_loop_cases (cs : list pyval) : ∀ seen deduped,
  (Forall (keyable py_str) cs ∧
   ∃ seen', for_each (dedupe_one py_str) (seen, deduped) cs
            = ([], inr (seen', deduped ++ first_seen (key_of py_str) seen cs)))
  ∨ (¬ Forall (keyable py_str) cs ∧
     ∃ e, for_each (dedupe_one py_str) (seen, deduped) cs = ([], inl e)).
Proof.
  induction cs as [|c cs IH]; intros seen deduped.
  - left. split; [constructor|]. exists seen. simpl. by rewrite app_nil_r.
  - rewrite for_each_cons, dedupe_one_eq. simpl first_seen.
    assert (Hkey : key_of py_str c =
      match record_key py_str c with inr k => Some k | inl _ => None end) by done.
    rewrite Hkey. clear Hkey.
    destruct (record_key py_str c) as [e|k] eqn:Hk.
    + right. split; [|by exists e].
      intros H. apply Forall_cons in H as [[k Hc] _]. unfold key_of in Hc.
      by rewrite Hk in Hc.
    + assert (Hc : keyable py_str c) by (unfold keyable, key_of; rewrite Hk; eauto).
      case_decide as Hin.
      * rewrite run_bind_pure.
        destruct (IH seen deduped) as [[Hall Hrun]|[Hnot Hrun]].
        -- left. split; [by constructor|done].
        -- right. split; [|done]. by intros [_ ?]%Forall_cons.
      * rewrite run_bind_pure.
        destruct (IH (k :: seen) (deduped ++ [c])) as [[Hall Hrun]|[Hnot Hrun]].
        -- left. split; [by constructor|].
           destruct Hrun as [seen' ->]. exists seen'.
           by rewrite <- app_assoc.
        -- right. split; [|done]. by intros [_ ?]%Forall_cons.
Qed.

Lemma dedupe_cases (cs : list pyval) :
  (Forall (keyable py_str) cs ∧
   dedupe py_str cs = ([], inr (first_seen (key_of py_str) [] cs)))
  ∨ (¬ Forall (keyable py_str) cs ∧ ∃ e, dedupe py_str cs = ([], inl e)).
Proof.
  unfold dedupe.
  destruct (dedupe_loop_cases cs [] []) as [[Hall [seen' ->]]|[Hnot [e ->]]].
  - left. done.
  - right. split; [done|]. by exists e.
Qed.

Lemma first_seen_keyable (cs : list pyval) :
  Forall (keyable py_str) (first_seen (key_of py_str) [] cs).
Proof.
  apply Forall_forall. intros c Hc.
  destruct (first_seen_fresh _ _ _ _ Hc) as (k & Hk & _).
  unfold keyable. by rewrite Hk.
Qed.

End DedupeFacts.

(** ** Payload extraction *)

(** C6.  Whatever the bytes, the extraction decodes them (dropping what is
    not UTF-8, as the reference decoder shows on the last example), looks
    for the first [[] and hands the text from there to the end to
    [json.loads].  With no [[] in the text, or when that part of the text
    does not parse, the turn adds no record and raises nothing; when it
    parses to a list, the elements of the list are added, in their order.
    The bytes [garbage<<<[{"a":1}]] give the one record [{"a": 1}]. *)
Theorem payload_extraction :
  (∀ (decode : bytes → str) (loads : str → exn + pyval)
     (acc : list pyval) (raw : bytes),
     (∃ l, extract decode loads acc raw = ([], inr (acc ++ l))) ∧
     (91%N ∉ decode raw → extract decode loads acc raw = ([], inr acc)) ∧
     (∀ pre rest, decode raw = pre ++ 91%N :: rest → 91%N ∉ pre →
        (∀ e, loads (91%N :: rest) = inl e →
           extract decode loads acc raw = ([], inr acc)) ∧
        (∀ l, loads (91%N :: rest) = inr (PList l) →
           extract decode loads acc raw = ([], inr (acc ++ l))))) ∧
  extract Utf8.decode_ignore Json.loads [] garbage_then_payload
    = ([], inr [PDict [(lit "a", PInt 1)]]) ∧
  extract Utf8.decode_ignore Json.loads [] noisy_payload
    = ([], inr [PDict [(lit "a", PInt 1)]]).
Proof.
  split; [|split; vm_compute; reflexivity].
  intros decode loads acc raw.
  assert (Hsplit : ∀ pre rest, decode raw = pre ++ 91%N :: rest → 91%N ∉ pre →
    extract decode loads acc raw =
      ([], inr (match loads (91%N :: rest) with
                | inl _ => acc
                | inr v => match result (py_iter v) with
                           | inl _ => acc
                           | inr l => acc ++ l
                           end
                end))).
  { intros pre rest Hs Hn. unfold extract.
    destruct (find_char 91 (decode raw)) as [i|] eqn:Hfind.
    - apply find_char_split in Hfind as (pre' & rest' & Hs' & Hn' & ->).
      rewrite Hs in Hs'.
      destruct (first_split_unique _ _ _ _ _ Hs' Hn Hn') as [-> ->].
      apply try_block.
    - apply find_char_None in Hfind. exfalso. apply Hfind.
      rewrite Hs. apply elem_of_app. right. left. }
  assert (Hnone : 91%N ∉ decode raw → extract decode loads acc raw = ([], inr acc)).
  { intros Hn. apply find_char_None in Hn. unfold extract. by rewrite Hn. }
  split; [|split; [done|]].
  - destruct (find_char 91 (decode raw)) as [i|] eqn:Hfind.
    + apply find_char_split in Hfind as (pre & rest & Hs & Hn & _).
      rewrite (Hsplit pre rest Hs Hn).
      destruct (loads (91%N :: rest)) as [e|v].
      { exists []. by rewrite app_nil_r. }
      destruct (result (py_iter v)) as [e|l].
      { exists []. by rewrite app_nil_r. }
      by exists l.
    + apply find_char_None in Hfind. exists []. rewrite app_nil_r. by apply Hnone.
  - intros pre rest Hs Hn. rewrite (Hsplit pre rest Hs Hn). split.
    + intros e ->. done.
    + intros l ->. done.
Qed.

Lemma payload_extraction_witness :
(91%N ∉ lit "garbage<<<") ∧
  extract Utf8.decode_ignore Json.loads [PNone] garbage_then_payload
    = ([], inr ([PNone] ++ [PDict [(lit "a", PInt 1)]])).
Proof.
  assert (Hn : 91%N ∉ lit "garbage<<<").
  { intros H. vm_compute in H. repeat (apply elem_of_cons in H as [H|H]; [done|]).
    by apply elem_of_nil in H. }
  split; [exact Hn|].
  destruct payload_extraction as [H _].
  destruct (H Utf8.decode_ignore Json.loads [PNone] garbage_then_payload)
    as (_ & _ & Hs).
  apply (Hs (lit "garbage<<<") (lit "{" ++ [34; 97; 34]%N ++ lit ":1}]")).
  - vm_compute. reflexivity.
  - exact Hn.
  - vm_compute. reflexivity.
Defined.

(** ** The harvest *)

(** C8.  The harvest loop never raises, whatever the network, the decoder
    and the parser do.  It goes through the departments in the order of
    the list it is given (the sorted list of the discovery), fetching each
    once, and returns the concatenation, in that order, of what the shards
    add.  A department whose fetch gives no response, whose text has no
    [[] or whose payload does not parse adds nothing and stops nothing; a
    department whose payload parses to a list adds exactly the elements of
    that list, in the order of the payload.  The run then goes on to
    deduplicate exactly these records: a department that failed leaves no
    mark on it. *)
Theorem harvest_isolates_failures
    (net : request → nat → outcome) (decode : bytes → str)
    (loads : str → exn + pyval) (py_str : pyval → str)
    (term_code : str) (departments : list str) :
  ∃ parts,
    Forall2 (λ dept l,
      shard decode loads (fetched net (shard_request term_code dept) 3) l)
      departments parts ∧
    result (harvest net decode loads term_code departments) = inr (mjoin parts) ∧
    trace (harvest net decode loads term_code departments)
    = departments ≫= (λ dept, trace (fetch net (shard_request term_code dept) 3)) ∧
    result (get_courses net decode loads py_str term_code departments)
    = result (dedupe py_str (mjoin parts)) ∧
    (∀ i dept raw pre rest l,
       departments !! i = Some dept →
       fetched net (shard_request term_code dept) 3 = Some raw → raw ≠ [] →
       decode raw = pre ++ 91%N :: rest → 91%N ∉ pre →
       loads (91%N :: rest) = inr (PList l) →
       parts !! i = Some l) ∧
    (∀ i dept,
       departments !! i = Some dept →
       falsy (fetched net (shard_request term_code dept) 3) = true →
       parts !! i = Some []) ∧
    (∀ i dept raw,
       departments !! i = Some dept →
       fetched net (shard_request term_code dept) 3 = Some raw → raw ≠ [] →
       (91%N ∉ decode raw ∨
        ∃ pre rest e, decode raw = pre ++ 91%N :: rest ∧ (91%N ∉ pre) ∧
                      loads (91%N :: rest) = inl e) →
       parts !! i = Some []).
Proof.
  destruct (harvest_loop_shards net decode loads term_code departments [])
    as (parts & Hparts & Hrun).
  exists parts.
  assert (Hat : ∀ i dept l,
    departments !! i = Some dept →
    shard decode loads (fetched net (shard_request term_code dept) 3) l →
    parts !! i = Some l).
  { intros i dept l Hi Hl.
    destruct (Forall2_lookup_l _ _ _ _ _ Hparts Hi) as (l' & Hl' & Hs).
    by rewrite (shard_functional decode loads _ _ _ Hl Hs). }
  split; [done|].
  unfold get_courses, harvest. rewrite result_bind, Hrun.
  split; [done|]. split; [done|]. split; [done|].
  split; [|split].
  - intros i dept raw pre rest l Hi Hf Hraw Hs Hn Hl.
    apply (Hat i dept l Hi). rewrite Hf. by eapply shard_decoded.
  - intros i dept Hi Hf. apply (Hat i dept [] Hi). by apply shard_no_response.
  - intros i dept raw Hi Hf Hraw Hfail.
    apply (Hat i dept [] Hi). rewrite Hf.
    destruct Hfail as [Hn|(pre & rest & e & Hs & Hn & Hl)].
    + by apply shard_no_delimiter.
    + by eapply shard_malformed.
Qed.

Lemma harvest_isolates_failures_witness :
  let net : request → nat → outcome := λ req _,
    if decide (req = shard_request (lit "20253") (lit "HIST"))
    then Failure TransportError
    else Response 200 (blit "noise[1, 2]") in
  ∃ parts,
    result (harvest net Utf8.decode_ignore Json.loads (lit "20253")
              [lit "HIST"; lit "UNHS"]) = inr (mjoin parts) ∧
    parts !! 0%nat = Some [] ∧
    parts !! 1%nat = Some [PInt 1; PInt 2].
Proof.
  intros net.
  destruct (harvest_isolates_failures net Utf8.decode_ignore Json.loads (λ _, [])
              (lit "20253") [lit "HIST"; lit "UNHS"])
    as (parts & _ & Hres & _ & _ & Hlist & Hnone & _).
  exists parts. split; [exact Hres|]. split.
  - apply (Hnone 0%nat (lit "HIST")); reflexivity.
  - apply (Hlist 1%nat (lit "UNHS") (blit "noise[1, 2]") (lit "noise") (lit "1, 2]")).
    + reflexivity.
    + reflexivity.
    + discriminate.
    + vm_compute. reflexivity.
    + intros H. vm_compute in H.
      repeat (apply elem_of_cons in H as [H|H]; [done|]). by apply elem_of_nil in H.
    + vm_compute. reflexivity.
Defined.

(** The deduplication that follows the harvest is another matter: it takes
    every harvested element for a dict.  A shard whose payload is the list
    [[1]] is harvested, and [get_courses] then raises. *)
Lemma get_courses_needs_records :
  let net : request → nat → outcome := λ _ _, Response 200 (blit "[1]") in
  result (harvest net Utf8.decode_ignore Json.loads (lit "20253") [lit "HIST"])
    = inr [PInt 1] ∧
  result (get_courses net Utf8.decode_ignore Json.loads (λ _, [])
            (lit "20253") [lit "HIST"])
    = inl AttributeError.
Proof. split; vm_compute; reflexivity. Qed.

(** ** The identity key and the deduplication *)






(** C5.  Deduplicating twice is deduplicating once: run on its own output,
    the deduplication returns it unchanged; and when it raises on a
    sequence, there is no output to run it on again. *)
Theorem dedupe_idempotent (py_str : pyval → str) (x : list pyval) :
  dedupe py_str x ≫= dedupe py_str = dedupe py_str x ∧
  (∀ y, result (dedupe py_str x) = inr y → dedupe py_str y = ([], inr y)).
Proof.
  assert (Hy : ∀ y, result (dedupe py_str x) = inr y → dedupe py_str y = ([], inr y)).
  { intros y Hy.
    destruct (dedupe_cases py_str x) as [[_ Hrun]|[_ [e Hrun]]];
      rewrite Hrun in Hy; [|done].
    injection Hy as <-.
    destruct (dedupe_cases py_str (first_seen (key_of py_str) [] x))
      as [[_ Hrun']|[Hnot _]].
    - by rewrite Hrun', first_seen_idemp.
    - destruct Hnot. apply first_seen_keyable. }
  split; [|done].
  destruct (dedupe_cases py_str x) as [[_ Hrun]|[_ [e Hrun]]].
  - rewrite Hrun at 1. rewrite run_bind_pure.
    rewrite (Hy (first_seen (key_of py_str) [] x)); by rewrite Hrun.
  - by rewrite Hrun.
Qed.

Lemma dedupe_idempotent_witness :
  let c := PDict [(lit "id", PStr (lit "20253HIST1010W001"))] in
  dedupe (λ _, []) [c; c] = ([], inr [c]) ∧ dedupe (λ _, []) [c] = ([], inr [c]).
Proof.
  intros c.
  assert (H : result (dedupe (λ _, []) [c; c]) = inr [c]) by (vm_compute; reflexivity).
  split; [vm_compute; reflexivity|].
  exact (proj2 (dedupe_idempotent (λ _, []) [c; c]) [c] H).
Defined.

(** ** Empty responses *)

(** C10.  Both phases test the fetched bytes for truth, so a response with
    an empty body counts as no response: it gives no code in the discovery
    and no record in the harvest.  Two networks whose fetches differ only
    in that, one failing where the other answers with an empty body, give
    the same departments and the same courses. *)
Theorem empty_body_is_no_response
    (unicode_isalnum : N → bool) (select_table_tr : bytes → list tag_tr)
    (decode : bytes → str) (loads : str → exn + pyval) (py_str : pyval → str)
    (net1 net2 : request → nat → outcome)
    (semester term_code : str) (manual departments : list str) :
  (∀ req, blank (fetched net1 req 3) = blank (fetched net2 req 3)) →
  page_codes unicode_isalnum select_table_tr semester (Some [])
    = page_codes unicode_isalnum select_table_tr semester None ∧
  result (get_departments unicode_isalnum select_table_tr net1 semester)
    = result (get_departments unicode_isalnum select_table_tr net2 semester) ∧
  result (discover unicode_isalnum select_table_tr net1 semester manual)
    = result (discover unicode_isalnum select_table_tr net2 semester manual) ∧
  result (harvest net1 decode loads term_code departments)
    = result (harvest net2 decode loads term_code departments) ∧
  result (get_courses net1 decode loads py_str term_code departments)
    = result (get_courses net2 decode loads py_str term_code departments).
Proof.
  intros Hb.
  assert (Hfound := found_blank unicode_isalnum select_table_tr net1 net2 semester Hb).
  assert (Hharvest : result (harvest net1 decode loads term_code departments)
                     = result (harvest net2 decode loads term_code departments)).
  { destruct (harvest_isolates_parts net1 decode loads term_code departments)
      as (parts1 & H1 & ->).
    destruct (harvest_isolates_parts net2 decode loads term_code departments)
      as (parts2 & H2 & ->).
    by rewrite (shards_blank _ _ _ _ _ _ Hb _ _ H1 H2). }
  split; [done|]. split; [|split; [|split; [done|]]].
  - pose proof (get_departments_returns unicode_isalnum select_table_tr net1 semester) as H1.
    pose proof (get_departments_returns unicode_isalnum select_table_tr net2 semester) as H2.
    apply returned_Some in H1, H2. by rewrite H1, H2, Hfound.
  - pose proof (discover_returns unicode_isalnum select_table_tr net1 semester manual) as H1.
    pose proof (discover_returns unicode_isalnum select_table_tr net2 semester manual) as H2.
    apply returned_Some in H1, H2. by rewrite H1, H2, Hfound.
  - unfold get_courses. by rewrite !result_bind, Hharvest.
Qed.

Lemma empty_body_is_no_response_witness :
  let failing : request → nat → outcome := λ _ _, Failure TransportError in
  let empty : request → nat → outcome := λ _ _, Response 200 [] in
  let req := shard_request (lit "20253") (lit "HIST") in
  fetched failing req 3 = None ∧
  fetched empty req 3 = Some [] ∧
  result (get_courses failing Utf8.decode_ignore Json.loads (λ _, [])
            (lit "20253") [lit "HIST"; lit "UNHS"])
  = result (get_courses empty Utf8.decode_ignore Json.loads (λ _, [])
              (lit "20253") [lit "HIST"; lit "UNHS"]).
Proof.
  intros failing empty req.
  split; [reflexivity|]. split; [reflexivity|].
  apply (empty_body_is_no_response (λ _, false) (λ _, [])
           Utf8.decode_ignore Json.loads (λ _, []) failing empty
           (lit "Fall2025") (lit "20253") MANUAL_DEPTS [lit "HIST"; lit "UNHS"]).
  intros r. reflexivity.
Defined.

(** * Further properties *)

(** ** [fetch]: the first response wins *)

Lemma attempts_app (t1 t2 : list event) :
  attempts (t1 ++ t2) = (attempts t1 + attempts t2)%nat.
Proof. unfold attempts. by rewrite List.filter_app, length_app. Qed.

Lemma delays_app (t1 t2 : list event) :
  delays (t1 ++ t2) = (delays t1 + delays t2)%nat.
Proof. unfold delays. by rewrite List.filter_app, length_app. Qed.

Lemma gets_app (t1 t2 : list event) : gets (t1 ++ t2) = gets t1 ++ gets t2.
Proof. apply omap_app. Qed.

Lemma gets_rounds req n :
  gets (mjoin (replicate n [EvGet req; EvSleep backoff])) = replicate n req.
Proof. induction n as [|n IH]; [done|]. simpl. by rewrite <- IH. Qed.

Lemma attempts_gets (t : list event) : attempts t = length (gets t).
Proof.
  unfold attempts, gets. induction t as [|[r|s] t IH]; simpl; [done| |done].
  by rewrite IH.
Qed.

Lemma run_bind_pure_trace {A B} (t : list event) (a : A) (f : A → Run B) :
  ((t, inr a) : Run A) ≫= f = (t ++ trace (f a), result (f a)).
Proof. simpl. by destruct (f a). Qed.

Lemma fetch_loop_cases (net : request → nat → outcome) (req : request) (n : nat) :
  ∀ k0,
  (∃ k status body,
     (k < n)%nat ∧
     (∀ j, (j < k)%nat → ∃ e, net req (k0 + j)%nat = Failure e) ∧
     net req (k0 + k)%nat = Response status body ∧
     fetch_loop net req k0 n
     = (mjoin (replicate k (failed_round req)) ++ [EvGet req], inr (Some body)))
  ∨ ((∀ j, (j < n)%nat → ∃ e, net req (k0 + j)%nat = Failure e) ∧
     fetch_loop net req k0 n = (mjoin (replicate n (failed_round req)), inr None)).
Proof.
  induction n as [|n IH]; intros k0.
  - right. split; [intros j Hj; lia|done].
  - change (fetch_loop net req k0 (S n)) with
      (r ← attempt net req k0;
       match r with
       | Some body => mret (Some body)
       | None => fetch_loop net req (S k0) n
       end).
    destruct (net req k0) as [status body|e] eqn:Hk0.
    + left. exists 0%nat, status, body.
      split; [lia|]. split; [intros j Hj; lia|].
      rewrite Nat.add_0_r. split; [done|].
      by rewrite (attempt_response _ _ _ _ _ Hk0).
    + rewrite (attempt_failure _ _ _ _ Hk0). rewrite run_bind_pure_trace.
      assert (Hshift : ∀ m, (∀ j, (j < m)%nat → ∃ e', net req (S k0 + j)%nat = Failure e') →
        ∀ j, (j < S m)%nat → ∃ e', net req (k0 + j)%nat = Failure e').
      { intros m Hm [|j] Hj; [rewrite Nat.add_0_r; eauto|].
        replace (k0 + S j)%nat with (S k0 + j)%nat by lia. apply Hm. lia. }
      destruct (IH (S k0)) as [(k & status & body & Hk & Hfail & Hresp & ->)|[Hfail ->]].
      * left. exists (S k), status, body. split; [lia|].
        split; [by apply Hshift|].
        replace (k0 + S k)%nat with (S k0 + k)%nat by lia. done.
      * right. split; [by apply Hshift|done].
Qed.

(** X1.  [fetch] returns the body of the first response: the attempts
    before it all raised, each followed by the pause, and no request is
    sent after it.  It returns [None] only after [retries] attempts that
    all raised. *)
Theorem fetch_first_response
    (net : request → nat → outcome) (req : request) (retries : Z) :
  (∃ k status body,
     (k < Z.to_nat retries)%nat ∧
     (∀ j, (j < k)%nat → ∃ e, net req j = Failure e) ∧
     net req k = Response status body ∧
     fetch net req retries
     = (mjoin (replicate k (failed_round req)) ++ [EvGet req], inr (Some body)) ∧
     fetched net req retries = Some body)
  ∨ ((∀ j, (j < Z.to_nat retries)%nat → ∃ e, net req j = Failure e) ∧
     fetch net req retries
     = (mjoin (replicate (Z.to_nat retries) (failed_round req)), inr None) ∧
     fetched net req retries = None).
Proof.
  unfold fetched, returned, fetch.
  destruct (fetch_loop_cases net req (Z.to_nat retries) 0)
    as [(k & status & body & Hk & Hfail & Hresp & ->)|[Hfail ->]].
  - left. exists k, status, body. done.
  - right. done.
Qed.

(** X2.  [fetch] never sends more than [retries] requests, all of them the
    one it was asked for.  It pauses once after every attempt that raised
    and never otherwise: its trace is a run of failed rounds, each the
    request followed by the pause, ended by one more request when, and only
    when, that one got a response; so there are as many pauses as attempts
    when it returns [None], and one pause fewer when it returns a body.  It
    returns [None] exactly when all [retries] attempts raised: a response
    is never turned into [None], be its body empty. *)
Theorem fetch_bounds
    (net : request → nat → outcome) (req : request) (retries : Z) :
  let t := trace (fetch net req retries) in
  (attempts t ≤ Z.to_nat retries)%nat ∧
  gets t = replicate (attempts t) req ∧
  (delays t ≤ attempts t ≤ delays t + 1)%nat ∧
  (fetched net req retries = None ↔
     ∀ j, (j < Z.to_nat retries)%nat → ∃ e, net req j = Failure e) ∧
  (retries ≤ 0 → fetch net req retries = ([], inr None)) ∧
  t = mjoin (replicate (delays t) (failed_round req))
      ++ match fetched net req retries with
         | Some _ => [EvGet req]
         | None => []
         end ∧
  (∀ j, (j < delays t)%nat → ∃ e, net req j = Failure e) ∧
  (fetched net req retries = None →
     delays t = Z.to_nat retries ∧ attempts t = Z.to_nat retries) ∧
  (∀ body, fetched net req retries = Some body →
     attempts t = S (delays t) ∧
     ∃ status, net req (delays t) = Response status body).
Proof.
  intros t. subst t. unfold fetched, returned.
  unfold fetch.
  destruct (fetch_loop_cases net req (Z.to_nat retries) 0)
    as [(k & status & body & Hk & Hfail & Hresp & ->)|[Hfail ->]];
    unfold trace, result, failed_round; simpl fst; simpl snd.
  - rewrite attempts_app, delays_app, gets_app, attempts_rounds, delays_rounds,
      gets_rounds.
    change (attempts [EvGet req]) with 1%nat. change (delays [EvGet req]) with 0%nat.
    change (gets [EvGet req]) with [req]. rewrite Nat.add_0_r.
    split; [lia|]. split.
    { replace (k + 1)%nat with (S k) by lia. by rewrite replicate_S_end. }
    split; [lia|]. split.
    { split; [done|]. intros H. destruct (H k Hk) as [e He].
      simpl in Hresp. congruence. }
    split; [intros Hle; lia|].
    split; [done|]. split; [exact Hfail|]. split; [done|].
    intros body' [= <-]. split; [lia|]. by exists status.
  - rewrite attempts_rounds, delays_rounds, gets_rounds.
    split; [lia|]. split; [done|]. split; [lia|]. split; [done|].
    split.
    { intros Hle. replace (Z.to_nat retries) with 0%nat by lia. done. }
    split; [by rewrite app_nil_r|]. split; [exact Hfail|]. split; [done|].
    intros body [=].
Qed.

(** ** The semester *)



(** On the ASCII digits [int] needs no table. *)
Lemma int_of_char_digit (unicode_decimal : N → option N) (c : N) :
  (48 ≤ c ≤ 57)%N → int_of_char unicode_decimal c = inr (c - 48)%N.
Proof.
  intros Hc. unfold int_of_char, between.
  destruct (N.ltb_spec c 128); [|lia].
  destruct (N.leb_spec 48 c); [|lia].
  destruct (N.leb_spec c 57); [|lia]. done.
Qed.

(** ** Pages with few rows *)

(** X4.  A page whose [table tr] selection has four rows or fewer gives no
    code, whatever its links: the first three rows and the last one are
    never read. *)
Theorem parse_department_page_few_rows
    (unicode_isalnum : N → bool) (select_table_tr : bytes → list tag_tr)
    (html : bytes) (semester : str) :
  (length (select_table_tr html) ≤ 4)%nat →
  parse_department_page unicode_isalnum select_table_tr html semester = [].
Proof.
  intros Hlen. unfold parse_department_page. rewrite slice_3_m1.
  replace (length (select_table_tr html) - 1 - 3)%nat with 0%nat by lia.
  done.
Qed.

Lemma parse_department_page_few_rows_witness :
  let hist := TagTr [TagA (Some (lit "/HIST_Fall2025.html"))] in
  parse_department_page (λ _, false) (λ _, [hist; hist; hist; hist])
    (blit "<table>") (lit "Fall2025") = [].
Proof.
  intros hist.
  apply (parse_department_page_few_rows (λ _, false)
           (λ _, [hist; hist; hist; hist]) (blit "<table>") (lit "Fall2025")).
  simpl. lia.
Defined.

(** ** [sorted(set(...))] depends on the elements only *)

Lemma str_leb_antisym (a b : str) :
  str_leb a b = true → str_leb b a = true → a = b.
Proof.
  revert b. induction a as [|x a IH]; intros [|y b]; simpl; try done.
  destruct (N.ltb_spec x y), (N.ltb_spec y x), (N.eqb_spec x y), (N.eqb_spec y x);
    try done; try lia.
  intros H1 H2. subst. f_equal. by apply IH.
Qed.

#[global] Instance str_le_antisym : AntiSymm eq str_le.
Proof. intros a b. apply str_leb_antisym. Qed.

Lemma sorted_set_ext (l1 l2 : list str) :
  (∀ c, c ∈ l1 ↔ c ∈ l2) → sorted_set l1 = sorted_set l2.
Proof.
  intros H. apply (StronglySorted_unique str_le); try apply Sorted_sorted_set.
  apply NoDup_Permutation; try apply NoDup_sorted_set.
  intros c. by rewrite !elem_of_sorted_set.
Qed.

(** Next to one another in the result of [sorted(set(...))], two codes are
    in strictly increasing order. *)
Lemma sorted_set_strict (l : list str) (i : nat) (a b : str) :
  sorted_set l !! i = Some a → sorted_set l !! S i = Some b →
  str_le a b ∧ a ≠ b.
Proof.
  intros Ha Hb.
  pose proof (Sorted_sorted_set l) as Hs. pose proof (NoDup_sorted_set l) as Hn.
  split.
  - rewrite <- (take_drop_middle _ _ _ Ha) in Hs.
    apply StronglySorted_app_1_r, StronglySorted_inv in Hs as [_ Hall].
    rewrite Forall_forall in Hall. apply Hall.
    apply list_elem_of_lookup. exists 0%nat. by rewrite lookup_drop, Nat.add_0_r.
  - intros ->. rewrite NoDup_alt in Hn. specialize (Hn _ _ _ Ha Hb). lia.
Qed.

(** ** The discovery as a whole *)

Lemma found_code_ok (unicode_isalnum : N → bool) (select_table_tr : bytes → list tag_tr)
    (net : request → nat → outcome) (semester c : str) :
  c ∈ found unicode_isalnum select_table_tr net semester → code_ok unicode_isalnum c.
Proof.
  unfold found. intros (letter & Hc & _)%list_elem_of_bind.
  unfold page_codes in Hc. destruct (falsy _); [by apply elem_of_nil in Hc|].
  rewrite parse_department_page_bind in Hc.
  apply list_elem_of_bind in Hc as (a & Hc & _).
  apply elem_of_anchor_codes in Hc. by apply search_Some in Hc as [? _].
Qed.

Lemma manual_code_ok (unicode_isalnum : N → bool) :
  Forall (code_ok unicode_isalnum) MANUAL_DEPTS.
Proof. repeat constructor; simpl; lia. Qed.

(** X5.  The departments of a run are the codes found on the pages and the
    manual ones, each once, in strictly increasing order of their code
    points: sorting and removing duplicates twice comes to doing it once,
    and neither the order nor the repetitions of the manual list count. *)
Theorem discover_is_sorted_union
    (unicode_isalnum : N → bool) (select_table_tr : bytes → list tag_tr)
    (net : request → nat → outcome) (semester : str) (manual : list str) :
  let departments :=
    sorted_set (found unicode_isalnum select_table_tr net semester ++ manual) in
  result (discover unicode_isalnum select_table_tr net semester manual)
    = inr departments ∧
  (∀ i a b, departments !! i = Some a → departments !! S i = Some b →
     str_le a b ∧ a ≠ b) ∧
  (∀ manual', (∀ c, c ∈ manual ↔ c ∈ manual') →
     result (discover unicode_isalnum select_table_tr net semester manual')
     = result (discover unicode_isalnum select_table_tr net semester manual)).
Proof.
  intros departments.
  assert (Hres : ∀ m,
    result (discover unicode_isalnum select_table_tr net semester m)
    = inr (sorted_set (found unicode_isalnum select_table_tr net semester ++ m))).
  { intros m. apply returned_Some. rewrite discover_returns. f_equal.
    apply sorted_set_ext. intros c.
    by rewrite !elem_of_app, elem_of_sorted_set. }
  split; [apply Hres|]. split; [apply sorted_set_strict|].
  intros manual' Hsame. rewrite !Hres. f_equal.
  apply sorted_set_ext. intros c. rewrite !elem_of_app, Hsame. done.
Qed.

(** X6.  Every department that a run queries is a code of 2 to 6 word
    characters: those read off the pages because the pattern takes nothing
    else, the four manual ones because they are such codes. *)
Theorem departments_well_formed
    (unicode_isalnum : N → bool) (select_table_tr : bytes → list tag_tr)
    (net : request → nat → outcome) (semester : str) :
  (∃ codes,
     result (get_departments unicode_isalnum select_table_tr net semester)
       = inr codes ∧
     Forall (code_ok unicode_isalnum) codes) ∧
  (∃ departments,
     result (discover unicode_isalnum select_table_tr net semester MANUAL_DEPTS)
       = inr departments ∧
     Forall (code_ok unicode_isalnum) departments).
Proof.
  split.
  - eexists. split; [apply returned_Some, get_departments_returns|].
    apply Forall_forall. intros c Hc. rewrite elem_of_sorted_set in Hc.
    exact (found_code_ok _ _ _ _ _ Hc).
  - eexists. split; [apply returned_Some, discover_returns|].
    apply Forall_forall. intros c Hc.
    rewrite elem_of_sorted_set, elem_of_app, elem_of_sorted_set in Hc.
    destruct Hc as [Hc|Hc].
    + exact (found_code_ok _ _ _ _ _ Hc).
    + pose proof (manual_code_ok unicode_isalnum) as Hm.
      rewrite Forall_forall in Hm. by apply Hm.
Qed.

(** ** The requests of a run *)

Lemma index_request_inj (c1 c2 : N) :
  index_request c1 = index_request c2 → c1 = c2.
Proof.
  unfold index_request. by intros [= H].
Qed.

Lemma shard_request_inj (term_code d1 d2 : str) :
  shard_request term_code d1 = shard_request term_code d2 → d1 = d2.
Proof. unfold shard_request. by intros [= H]. Qed.

Lemma NoDup_index_letters : NoDup index_letters.
Proof.
  unfold index_letters. apply NoDup_fmap_2; [|apply NoDup_seq].
  intros a b H. lia.
Qed.

Lemma NoDup_run_requests (term_code : str) (departments : list str) :
  NoDup departments → NoDup (run_requests term_code departments).
Proof.
  intros Hd. unfold run_requests. apply NoDup_app. split; [|split].
  - apply NoDup_fmap_2; [|apply NoDup_index_letters].
    intros c1 c2. apply index_request_inj.
  - intros r (c & -> & _)%list_elem_of_fmap (d & Hr & _)%list_elem_of_fmap.
    discriminate Hr.
  - apply NoDup_fmap_2; [|done]. intros d1 d2. apply shard_request_inj.
Qed.


(** X7.  No two fetches of a run ask for the same thing: the 26 index
    pages differ by their letter, the shards of distinct departments by
    their [dept] parameter, and an index page carries no parameters while a
    shard does.  So every request of a run is fetched by one call of
    [fetch]. *)
Theorem run_requests_distinct (term_code : str) (departments : list str) :
  (∀ c1 c2, index_request c1 = index_request c2 → c1 = c2) ∧
  (∀ d1 d2, shard_request term_code d1 = shard_request term_code d2 → d1 = d2) ∧
  (∀ c d, index_request c ≠ shard_request term_code d) ∧
  (NoDup departments → NoDup (run_requests term_code departments)).
Proof.
  split; [apply index_request_inj|].
  split; [apply shard_request_inj|].
  split; [intros c d H; discriminate H|].
  apply NoDup_run_requests.
Qed.

Lemma run_requests_distinct_witness :
  NoDup (run_requests (lit "20253") [lit "HIST"; lit "UNHS"]).
Proof.
  apply (run_requests_distinct (lit "20253") [lit "HIST"; lit "UNHS"]).
  apply NoDup_cons. split; [|apply NoDup_singleton].
  intros H%list_elem_of_singleton. discriminate H.
Defined.

(** ** More on the deduplication *)

Section FirstSeenMore.

Variable key : pyval → option hkey.

Lemma first_seen_app (a b : list pyval) : ∀ seen,
  first_seen key seen (a ++ b)
  = first_seen key seen a ++ first_seen key (seen_after key seen a) b.
Proof.
  induction a as [|c a IH]; intros seen; simpl; [done|].
  destruct (key c) as [k|]; [|apply IH].
  case_decide; [apply IH|]. by rewrite IH.
Qed.

Lemma seen_after_mono (cs : list pyval) : ∀ seen k,
  k ∈ seen → k ∈ seen_after key seen cs.
Proof.
  induction cs as [|c cs IH]; intros seen k Hk; simpl; [done|].
  destruct (key c) as [k0|]; [|by apply IH].
  case_decide; apply IH; [done|by right].
Qed.

Lemma seen_after_covers (cs : list pyval) : ∀ seen c k,
  c ∈ cs → key c = Some k → k ∈ seen_after key seen cs.
Proof.
  induction cs as [|c0 cs IH]; intros seen c k Hc Hk; simpl;
    [by apply elem_of_nil in Hc|].
  apply elem_of_cons in Hc as [->|Hc].
  - rewrite Hk. case_decide; apply seen_after_mono; [done|left].
  - destruct (key c0) as [k0|]; [|by apply (IH _ c)].
    case_decide; by apply (IH _ c).
Qed.

Lemma first_seen_id (cs : list pyval) : ∀ seen,
  Forall (λ c, ∃ k, key c = Some k ∧ k ∉ seen) cs →
  NoDup (key <$> cs) →
  first_seen key seen cs = cs.
Proof.
  induction cs as [|c cs IH]; intros seen Hall Hnd; simpl; [done|].
  apply Forall_cons in Hall as [(k & Hk & Hn) Hall].
  rewrite fmap_cons in Hnd. apply NoDup_cons in Hnd as [Hnew Hnd].
  rewrite Hk, decide_False by done. f_equal. apply IH; [|done].
  rewrite Forall_forall in Hall. apply Forall_forall. intros c' Hc'.
  destruct (Hall c' Hc') as (k' & Hk' & Hn'). exists k'. split; [done|].
  apply not_elem_of_cons. split; [|done].
  intros ->. apply Hnew. rewrite Hk, <- Hk'. by apply list_elem_of_fmap_2.
Qed.

End FirstSeenMore.

Lemma keyable_is_dict (py_str : pyval → str) (c : pyval) :
  keyable py_str c → is_dict c.
Proof.
  intros [k Hk]. unfold key_of, record_key in Hk.
  destruct c as [| | | | | |d]; try done. by exists d.
Qed.

(** The exception that a record raises in the loop tells what it is. *)
Lemma record_key_raises (py_str : pyval → str) (c : pyval) (e : exn) :
  record_key py_str c = inl e →
  (¬ is_dict c ∧ e = AttributeError) ∨ (is_dict c ∧ e = TypeError).
Proof.
  unfold record_key. destruct c as [| | | | | |d];
    try (intros [= <-]; left; split; [by intros [d' ?]|done]).
  rewrite identity_key_dict, run_bind_ret. intros He. right.
  split; [by exists d|].
  destruct (let a := default PNone (dict_lookup d (lit "id")) in
            let b := default PNone (dict_lookup d (lit "CourseNumber")) in
            if truthy a then a else if truthy b then b else PStr (py_str (PDict d)))
    as [| | | | | |]; simpl in He; try done; by injection He.
Qed.

(** X8.  The deduplication goes on from where it stands: on a sequence
    that is continued, it returns what it returned before, followed by
    records of the continuation whose key no earlier record has; and where
    it raised before, it raises the same again. *)
Theorem dedupe_extends (py_str : pyval → str) (x y : list pyval) :
  (∀ e, result (dedupe py_str x) = inl e →
     result (dedupe py_str (x ++ y)) = inl e) ∧
  (∀ r, result (dedupe py_str x) = inr r → Forall (keyable py_str) y →
     ∃ r', result (dedupe py_str (x ++ y)) = inr (r ++ r') ∧
           r' `sublist_of` y ∧
           ∀ c c', c ∈ r' → c' ∈ x → key_of py_str c' ≠ key_of py_str c).
Proof.
  split.
  - intros e He. unfold dedupe in *. rewrite for_each_app.
    destruct (dedupe_loop_cases py_str x [] []) as [[_ [seen' Hrun]]|[_ [e' Hrun]]];
      rewrite Hrun in *; [done|]. done.
  - intros r Hr Hy.
    destruct (dedupe_cases py_str x) as [[Hx Hrun]|[_ [e Hrun]]];
      rewrite Hrun in Hr; [|done]. injection Hr as <-.
    destruct (dedupe_cases py_str (x ++ y)) as [[_ Hrun']|[Hnot _]].
    + rewrite Hrun', first_seen_app. eexists. split; [done|].
      split; [apply first_seen_sublist|].
      intros c c' Hc Hc'.
      destruct (first_seen_fresh _ _ _ _ Hc) as (k & Hk & Hn).
      rewrite Hk. intros Hk'. apply Hn. by eapply seen_after_covers.
    + destruct Hnot. by apply Forall_app.
Qed.

Lemma dedupe_extends_witness :
  let a := PDict [(lit "id", PInt 1)] in
  let b := PDict [(lit "id", PInt 2)] in
  ∃ r', result (dedupe (λ _, []) ([a; b] ++ [b; a])) = inr ([a; b] ++ r').
Proof.
  intros a b.
  destruct (proj2 (dedupe_extends (λ _, []) [a; b] [b; a]) [a; b]) as (r' & Hr & _).
  - vm_compute. reflexivity.
  - repeat constructor; by eexists.
  - by exists r'.
Defined.

(** X9.  The deduplication returns a sequence as it is exactly when all
    its records can be filed and no two of them have the same key. *)
Theorem dedupe_unchanged_iff (py_str : pyval → str) (x : list pyval) :
  dedupe py_str x = ([], inr x) ↔
  Forall (keyable py_str) x ∧ NoDup (key_of py_str <$> x).
Proof.
  destruct (dedupe_cases py_str x) as [[Hall Hrun]|[Hnot [e Hrun]]]; rewrite Hrun.
  - split.
    + intros [= Hx]. split; [done|]. rewrite <- Hx. apply first_seen_NoDup.
    + intros [_ Hnd]. do 2 f_equal. apply first_seen_id; [|done].
      apply Forall_forall. intros c Hc. rewrite Forall_forall in Hall.
      destruct (Hall c Hc) as [k Hk]. exists k. split; [done|apply not_elem_of_nil].
  - split; [done|]. by intros [? _].
Qed.

(** X10.  The deduplication stops at the first record that it cannot
    file and returns nothing, not even the records it had kept: an
    [AttributeError] for an element that is not a dict, a [TypeError] for
    a dict whose key is a list or a dict. *)
Theorem dedupe_raises (py_str : pyval → str) (pre post : list pyval)
    (c : pyval) (e : exn) :
  Forall (keyable py_str) pre → record_key py_str c = inl e →
  dedupe py_str (pre ++ c :: post) = ([], inl e) ∧
  ((¬ is_dict c ∧ e = AttributeError) ∨ (is_dict c ∧ e = TypeError)).
Proof.
  intros Hpre He. split; [|by apply record_key_raises with py_str].
  unfold dedupe. rewrite for_each_app.
  destruct (dedupe_loop_cases py_str pre [] []) as [[_ [seen' ->]]|[Hnot _]]; [|done].
  rewrite run_bind_pure, for_each_cons, dedupe_one_eq, He. done.
Qed.

Lemma dedupe_raises_witness :
  let good := PDict [(lit "id", PInt 1)] in
  let bad := PDict [(lit "id", PList [PInt 1])] in
  dedupe (λ _, []) ([good] ++ bad :: [good]) = ([], inl TypeError).
Proof.
  intros good bad.
  apply (dedupe_raises (λ _, []) [good] [good] bad TypeError).
  - repeat constructor. by eexists.
  - reflexivity.
Defined.

(** *** Keys of integer and string ids *)

Lemma odd_part_spec (m : positive) : ∀ e q e',
  odd_part m e = (q, e') → e ≤ e' ∧ Zpos m = Zpos q * 2 ^ (e' - e).
Proof.
  induction m as [m IH|m IH|]; intros e q e' H; simpl in H.
  - injection H as <- <-. rewrite Z.sub_diag. lia.
  - apply IH in H as [Hle Hm]. split; [lia|].
    replace (e' - e) with (Z.succ (e' - (e + 1))) by lia.
    rewrite Z.pow_succ_r by lia. lia.
  - injection H as <- <-. rewrite Z.sub_diag. lia.
Qed.

Lemma int_key_value (z : Z) :
  ∃ m e, int_key z = KNum m e ∧ 0 ≤ e ∧ z = m * 2 ^ e.
Proof.
  destruct z as [|p|p]; simpl.
  - exists 0, 0. done.
  - unfold num_key. destruct (odd_part p 0) as [q e'] eqn:H.
    apply odd_part_spec in H as [Hle Hm]. exists (Zpos q), e'.
    rewrite Z.sub_0_r in Hm. done.
  - unfold num_key. destruct (odd_part p 0) as [q e'] eqn:H.
    apply odd_part_spec in H as [Hle Hm]. exists (Zneg q), e'.
    rewrite Z.sub_0_r in Hm. split; [done|]. split; [done|]. lia.
Qed.

Lemma int_key_inj (z1 z2 : Z) : int_key z1 = int_key z2 → z1 = z2.
Proof.
  destruct (int_key_value z1) as (m1 & e1 & H1 & _ & ->).
  destruct (int_key_value z2) as (m2 & e2 & H2 & _ & ->).
  rewrite H1, H2. by intros [= -> ->].
Qed.

(** X11.  Two records whose ids are integers or strings (and count as
    true) have the same key exactly when their ids are the same value:
    different numbers are never merged, and the number 1 is never merged
    with the string ["1"]. *)
Theorem plain_ids_merge_iff_equal (py_str : pyval → str)
    (d1 d2 : list (str * pyval)) (v1 v2 : pyval) :
  has_truthy d1 (lit "id") v1 → has_truthy d2 (lit "id") v2 →
  plain_id v1 → plain_id v2 →
  is_Some (key_of py_str (PDict d1)) ∧
  (key_of py_str (PDict d1) = key_of py_str (PDict d2) ↔ v1 = v2).
Proof.
  intros [Hl1 Ht1] [Hl2 Ht2] Hp1 Hp2.
  assert (Hkey : ∀ d v, dict_lookup d (lit "id") = Some v → truthy v = true →
    key_of py_str (PDict d) =
      match result (hash_key v) with inr k => Some k | inl _ => None end).
  { intros d v Hl Ht. unfold key_of, record_key.
    rewrite identity_key_dict, run_bind_ret. cbv zeta. by rewrite Hl; simpl; rewrite Ht. }
  rewrite (Hkey _ _ Hl1 Ht1), (Hkey _ _ Hl2 Ht2).
  destruct Hp1 as [[z1 ->]|[s1 ->]], Hp2 as [[z2 ->]|[s2 ->]]; simpl.
  - split; [eauto|]. split; [intros [= H%int_key_inj]; by subst|by intros [= ->]].
  - split; [eauto|]. split; [|done].
    destruct (int_key_value z1) as (m & e & -> & _). done.
  - split; [eauto|]. split; [|done].
    destruct (int_key_value z2) as (m & e & -> & _). done.
  - split; [eauto|]. split; [by intros [= ->]|by intros [= ->]].
Qed.

Lemma plain_ids_merge_iff_equal_witness :
  key_of (λ _, []) (PDict [(lit "id", PInt 1)])
  ≠ key_of (λ _, []) (PDict [(lit "id", PStr (lit "1"))]).
Proof.
  intros H.
  apply (plain_ids_merge_iff_equal (λ _, [])
           [(lit "id", PInt 1)] [(lit "id", PStr (lit "1"))]
           (PInt 1) (PStr (lit "1"))) in H.
  - discriminate H.
  - split; reflexivity.
  - split; reflexivity.
  - left. by exists 1.
  - right. by eexists.
Defined.

(** X17.  Ids and course numbers are filed in one and the same set: a
    record without a usable [id] whose [CourseNumber] is the [id] of an
    earlier record is dropped as its duplicate. *)
Theorem key_fields_share_one_set (py_str : pyval → str)
    (d1 d2 : list (str * pyval)) (v : pyval) :
  has_truthy d1 (lit "id") v →
  lacks d2 (lit "id") → has_truthy d2 (lit "CourseNumber") v →
  plain_id v →
  key_of py_str (PDict d1) = key_of py_str (PDict d2) ∧
  dedupe py_str [PDict d1; PDict d2] = ([], inr [PDict d1]).
Proof.
  intros [Hl1 Ht1] Hlack [Hl2 Ht2] Hplain.
  assert (Hid2 : truthy (default PNone (dict_lookup d2 (lit "id"))) = false).
  { destruct Hlack as [Hn|(w & Hw & Hf)]; [by rewrite Hn|by rewrite Hw]. }
  assert (Hk : ∃ k, result (hash_key v) = inr k).
  { destruct Hplain as [[z ->]|[s ->]]; by eexists. }
  destruct Hk as [k Hk].
  assert (Hk1 : key_of py_str (PDict d1) = Some k).
  { unfold key_of, record_key. rewrite identity_key_dict, run_bind_ret. cbv zeta.
    rewrite Hl1. simpl default. by rewrite Ht1, Hk. }
  assert (Hk2 : key_of py_str (PDict d2) = Some k).
  { unfold key_of, record_key. rewrite identity_key_dict, run_bind_ret. cbv zeta.
    rewrite Hid2, Hl2. simpl default. by rewrite Ht2, Hk. }
  split; [by rewrite Hk1, Hk2|].
  destruct (dedupe_cases py_str [PDict d1; PDict d2]) as [[_ ->]|[Hnot _]].
  - simpl. rewrite Hk1, Hk2.
    destruct (decide (k ∈ [])) as [H%elem_of_nil|_]; [done|].
    destruct (decide (k ∈ [k])) as [_|H]; [done|]. destruct H. left.
  - destruct Hnot. repeat constructor; by eexists.
Qed.

Lemma key_fields_share_one_set_witness :
  let listed := PDict [(lit "id", PStr (lit "HIST1010"))] in
  let other := PDict [(lit "CourseNumber", PStr (lit "HIST1010"));
                      (lit "Title", PStr (lit "Another course"))] in
  dedupe (λ _, []) [listed; other] = ([], inr [listed]).
Proof.
  intros listed other.
  apply (key_fields_share_one_set (λ _, [])
           [(lit "id", PStr (lit "HIST1010"))]
           [(lit "CourseNumber", PStr (lit "HIST1010"));
            (lit "Title", PStr (lit "Another course"))]
           (PStr (lit "HIST1010"))).
  - split; reflexivity.
  - by left.
  - split; reflexivity.
  - right. by eexists.
Defined.

(** ** More on the harvest *)

(** X12.  Harvesting a list of departments in two parts, one after the
    other, gives the records of the first part followed by those of the
    second, and the requests of the first followed by those of the second;
    with no department there is no request and no record. *)
Theorem harvest_app
    (net : request → nat → outcome) (decode : bytes → str)
    (loads : str → exn + pyval) (term_code : str) (d1 d2 : list str) :
  harvest net decode loads term_code [] = ([], inr []) ∧
  ∃ r1 r2,
    result (harvest net decode loads term_code d1) = inr r1 ∧
    result (harvest net decode loads term_code d2) = inr r2 ∧
    harvest net decode loads term_code (d1 ++ d2)
    = (trace (harvest net decode loads term_code d1)
         ++ trace (harvest net decode loads term_code d2), inr (r1 ++ r2)).
Proof.
  split; [done|].
  destruct (harvest_loop_shards net decode loads term_code d1 [])
    as (p1 & H1 & Hrun1).
  destruct (harvest_loop_shards net decode loads term_code d2 [])
    as (p2 & H2 & Hrun2).
  destruct (harvest_loop_shards net decode loads term_code d2 (mjoin p1))
    as (p2' & H2' & Hrun2').
  assert (p2' = p2) as ->
    by (eapply (shards_blank net net decode loads term_code d2); eauto).
  exists (mjoin p1), (mjoin p2). unfold harvest.
  rewrite for_each_app, Hrun1, Hrun2. simpl app.
  rewrite run_bind_pure_trace, Hrun2'. done.
Qed.

(** X13.  What [get_courses] returns was harvested: every course of the
    output is a dict and an element of the payload of the shard of one of
    the departments, and the output has no more courses than were
    harvested. *)
Theorem get_courses_provenance
    (net : request → nat → outcome) (decode : bytes → str)
    (loads : str → exn + pyval) (py_str : pyval → str)
    (term_code : str) (departments : list str) (courses : list pyval) :
  result (get_courses net decode loads py_str term_code departments) = inr courses →
  ∃ harvested,
    result (harvest net decode loads term_code departments) = inr harvested ∧
    courses `sublist_of` harvested ∧
    (length courses ≤ length harvested)%nat ∧
    Forall is_dict courses ∧
    ∀ c, c ∈ courses →
      ∃ dept l, dept ∈ departments ∧
        shard decode loads (fetched net (shard_request term_code dept) 3) l ∧
        c ∈ l.
Proof.
  intros Hres.
  destruct (harvest_isolates_parts net decode loads term_code departments)
    as (parts & Hparts & Hh).
  unfold get_courses in Hres. rewrite result_bind, Hh in Hres.
  destruct (dedupe_cases py_str (mjoin parts)) as [[Hall Hrun]|[_ [e Hrun]]];
    rewrite Hrun in Hres; [|done].
  injection Hres as <-. exists (mjoin parts).
  pose proof (first_seen_sublist (key_of py_str) (mjoin parts) []) as Hsub.
  split; [done|]. split; [done|]. split; [by apply sublist_length|].
  split.
  - apply Forall_forall. intros c Hc.
    apply (keyable_is_dict py_str). rewrite Forall_forall in Hall.
    apply Hall. by eapply elem_of_sublist.
  - intros c Hc. apply (elem_of_sublist _ _ _ Hc) in Hsub.
    apply list_elem_of_join in Hsub as (l & Hcl & Hl).
    apply list_elem_of_lookup in Hl as [i Hi].
    destruct (Forall2_lookup_r _ _ _ _ _ Hparts Hi) as (dept & Hd & Hs).
    exists dept, l. split; [by eapply list_elem_of_lookup_2|done].
Qed.

Lemma get_courses_provenance_witness :
  let net : request → nat → outcome :=
    λ _ _, Response 200 (blit "[{}, {}]") in
  ∃ harvested,
    result (harvest net Utf8.decode_ignore Json.loads (lit "20253") [lit "HIST"])
      = inr harvested ∧
    [PDict []] `sublist_of` harvested.
Proof.
  intros net.
  destruct (get_courses_provenance net Utf8.decode_ignore Json.loads (λ _, [])
              (lit "20253") [lit "HIST"] [PDict []]) as (h & Hh & Hsub & _).
  - vm_compute. reflexivity.
  - by exists h.
Defined.

(** ** The columns of the CSV file *)

Lemma mapM_run {A B} (f : A → Run B) (g : A → B) (l : list A) :
  (∀ x, x ∈ l → result (f x) = inr (g x)) →
  mapM f l = (l ≫= (λ x, trace (f x)), inr (g <$> l)).
Proof.
  induction l as [|x l IH]; intros Hf; [done|].
  change (mapM f (x :: l)) with (y ← f x; k ← mapM f l; mret (y :: k)).
  rewrite IH by (intros y Hy; apply Hf; by right).
  specialize (Hf x (list_elem_of_here _ _)).
  change ((x :: l) ≫= ?h) with (h x ++ (l ≫= h)). cbv beta.
  destruct (f x) as [t [e|b]]; unfold result in Hf; simpl in Hf; [done|].
  injection Hf as ->. simpl. by rewrite app_nil_r.
Qed.

Lemma all_keys_dicts (data : list pyval) :
  Forall is_dict data →
  ∃ names,
    all_keys data = ([], inr names) ∧
    NoDup names ∧ StronglySorted str_le names ∧
    ∀ k, k ∈ names ↔ ∃ d, PDict d ∈ data ∧ k ∈ fst <$> d.
Proof.
  intros Hall.
  assert (Hrun : mapM py_keys data
    = ([], inr ((λ c, match c with PDict d => fst <$> d | _ => [] end) <$> data))).
  { rewrite (mapM_run py_keys
               (λ c, match c with PDict d => fst <$> d | _ => [] end)).
    - f_equal. clear. induction data as [|c data IH]; [done|].
      change ((c :: data) ≫= ?f) with (f c ++ (data ≫= f)).
      rewrite IH. by destruct c.
    - intros c Hc. rewrite Forall_forall in Hall.
      by destruct (Hall c Hc) as [d ->]. }
  unfold all_keys. rewrite Hrun, run_bind_pure. eexists. split; [done|].
  split; [apply NoDup_sorted_set|]. split; [apply Sorted_sorted_set|].
  intros k. rewrite elem_of_sorted_set, list_elem_of_join. split.
  + intros (ks & Hk & (c & -> & Hc)%list_elem_of_fmap).
    rewrite Forall_forall in Hall. destruct (Hall c Hc) as [d ->]. eauto.
  + intros (d & Hd & Hk). exists (fst <$> d). split; [done|].
    apply list_elem_of_fmap. by exists (PDict d).
Qed.

(** X14.  On records that are all dicts [save_results_csv] gets its field
    names without raising: every key of every record, each once, in
    increasing order, and nothing else.  So every record fits the header
    that [csv.DictWriter] is given.  On a record that is not a dict the
    collection raises an [AttributeError]. *)
Theorem all_keys_spec (data : list pyval) :
  (Forall is_dict data →
     ∃ names,
       all_keys data = ([], inr names) ∧
       NoDup names ∧ StronglySorted str_le names ∧
       ∀ k, k ∈ names ↔ ∃ d, PDict d ∈ data ∧ k ∈ fst <$> d) ∧
  (¬ Forall is_dict data → all_keys data = ([], inl AttributeError)).
Proof.
  split; [apply all_keys_dicts|].
  intros Hnot. unfold all_keys.
  assert (Hrun : mapM py_keys data = ([], inl AttributeError)).
  { induction data as [|c data IH]; [by destruct Hnot|].
    change (mapM py_keys (c :: data)) with
      (y ← py_keys c; k ← mapM py_keys data; mret (y :: k)).
    destruct c as [| | | | | |d]; try done.
    rewrite IH; [done|]. intros H. apply Hnot. constructor; [by exists d|done]. }
  by rewrite Hrun.
Qed.

Lemma all_keys_spec_witness :
  ∃ names,
    all_keys [PDict [(lit "b", PInt 1); (lit "a", PNone)]; PDict [(lit "c", PNone)]]
      = ([], inr names) ∧ NoDup names.
Proof.
  destruct (proj1 (all_keys_spec
    [PDict [(lit "b", PInt 1); (lit "a", PNone)]; PDict [(lit "c", PNone)]]))
    as (names & Hrun & Hnd & _).
  - repeat constructor; by eexists.
  - by exists names.
Defined.

(** X15.  Whatever [get_courses] returns, [save_results_csv] can make its
    header of it: the collection of the field names does not raise, and
    every key of every course is a field name. *)
Theorem courses_have_columns
    (net : request → nat → outcome) (decode : bytes → str)
    (loads : str → exn + pyval) (py_str : pyval → str)
    (term_code : str) (departments : list str) (courses : list pyval) :
  result (get_courses net decode loads py_str term_code departments) = inr courses →
  ∃ names,
    all_keys courses = ([], inr names) ∧
    ∀ d k, PDict d ∈ courses → k ∈ fst <$> d → k ∈ names.
Proof.
  intros Hres.
  assert (Hall : Forall is_dict courses).
  { unfold get_courses in Hres. rewrite result_bind in Hres.
    destruct (result (harvest net decode loads term_code departments))
      as [e|harvested]; [done|].
    destruct (dedupe_cases py_str harvested) as [[Hk Hrun]|[_ [e Hrun]]];
      rewrite Hrun in Hres; [|done].
    injection Hres as <-. apply Forall_forall. intros c Hc.
    apply (keyable_is_dict py_str).
    pose proof (first_seen_keyable py_str harvested) as Hf.
    rewrite Forall_forall in Hf. by apply Hf. }
  destruct (all_keys_dicts courses Hall) as (names & Hrun & _ & _ & Hk).
  exists names. split; [done|]. intros d k Hd Hin. apply Hk. eauto.
Qed.

Lemma courses_have_columns_witness :
  let net : request → nat → outcome :=
    λ _ _, Response 200 (blit "[{}, {}]") in
  ∃ names, all_keys [PDict []] = ([], inr names).
Proof.
  intros net.
  destruct (courses_have_columns net Utf8.decode_ignore Json.loads (λ _, [])
              (lit "20253") [lit "HIST"] [PDict []]) as (names & Hn & _).
  - vm_compute. reflexivity.
  - by exists names.
Defined.

(** ** The requests of a whole run *)

Lemma sent_app (req : request) (t1 t2 : list event) :
  sent req (t1 ++ t2) = (sent req t1 + sent req t2)%nat.
Proof. unfold sent. by rewrite gets_app, filter_app, length_app. Qed.

Lemma fetch_gets (net : request → nat → outcome) (req : request) (retries : Z) :
  ∃ k, (k ≤ Z.to_nat retries)%nat ∧
       gets (trace (fetch net req retries)) = replicate k req.
Proof.
  unfold fetch.
  destruct (fetch_loop_cases net req (Z.to_nat retries) 0)
    as [(k & status & body & Hk & _ & _ & ->)|[_ ->]];
    unfold trace, failed_round; simpl fst.
  - exists (S k). split; [lia|].
    rewrite gets_app, gets_rounds. by rewrite replicate_S_end.
  - exists (Z.to_nat retries). split; [lia|apply gets_rounds].
Qed.

Lemma sent_replicate (req q : request) (k : nat) :
  length (filter (λ r, r = req) (replicate k q))
  = if decide (q = req) then k else 0%nat.
Proof.
  induction k as [|k IH]; [by case_decide|].
  simpl replicate. rewrite filter_cons. case_decide; simpl; by rewrite IH.
Qed.

Lemma filter_none {A} (P : A → Prop) `{∀ x, Decision (P x)} (l : list A) :
  (∀ x, x ∈ l → ¬ P x) → filter P l = [].
Proof.
  induction l as [|x l IH]; intros Hl; [done|].
  rewrite filter_cons_False by (apply Hl; left).
  apply IH. intros y Hy. apply Hl. by right.
Qed.

Section Traffic.

Variable net : request → nat → outcome.

(** The traces of the fetches of a list of requests, one after the other. *)
Lemma traffic_gets (reqs : list request) (req : request) :
  req ∈ gets (reqs ≫= (λ q, trace (fetch net q 3))) → req ∈ reqs.
Proof.
  induction reqs as [|q reqs IH]; [by intros ?%elem_of_nil|].
  change ((q :: reqs) ≫= ?h) with (h q ++ (reqs ≫= h)). cbv beta.
  rewrite gets_app, elem_of_app.
  destruct (fetch_gets net q 3) as (k & _ & ->).
  intros [[-> _]%elem_of_replicate|H]; [left|right; by apply IH].
Qed.

Lemma traffic_sent (reqs : list request) (req : request) :
  NoDup reqs → (sent req (reqs ≫= (λ q, trace (fetch net q 3))) ≤ 3)%nat.
Proof.
  induction reqs as [|q reqs IH]; intros Hnd; [simpl; unfold sent; simpl; lia|].
  apply NoDup_cons in Hnd as [Hq Hnd].
  change ((q :: reqs) ≫= ?h) with (h q ++ (reqs ≫= h)). cbv beta.
  rewrite sent_app.
  destruct (fetch_gets net q 3) as (k & Hk & Hg).
  assert (Hhead : sent req (trace (fetch net q 3))
                  = if decide (q = req) then k else 0%nat).
  { unfold sent. rewrite Hg. apply sent_replicate. }
  rewrite Hhead. case_decide as Hqr; [|specialize (IH Hnd); lia].
  subst q.
  assert (Htail : sent req (reqs ≫= (λ q, trace (fetch net q 3))) = 0%nat).
  { unfold sent. rewrite filter_none; [done|].
    intros r Hr%traffic_gets ->. done. }
  rewrite Htail. lia.
Qed.

Lemma traffic_attempts (reqs : list request) :
  (attempts (reqs ≫= (λ q, trace (fetch net q 3))) ≤ 3 * length reqs)%nat.
Proof.
  induction reqs as [|q reqs IH]; [simpl; unfold attempts; simpl; lia|].
  change ((q :: reqs) ≫= ?h) with (h q ++ (reqs ≫= h)). cbv beta.
  rewrite attempts_app. simpl length.
  destruct (fetch_gets net q 3) as (k & Hk & Hg).
  rewrite (attempts_gets (trace (fetch net q 3))), Hg, length_replicate. lia.
Qed.

End Traffic.

Lemma dedupe_trace (py_str : pyval → str) (x : list pyval) :
  trace (dedupe py_str x) = [].
Proof.
  by destruct (dedupe_cases py_str x) as [[_ ->]|[_ [e ->]]].
Qed.

Lemma run_ret_trace {A} (a : A) : trace (mret a : Run A) = [].
Proof. done. Qed.

Lemma run_ret_result {A} (a : A) : result (mret a : Run A) = inr a.
Proof. done. Qed.

Lemma get_departments_run
    (unicode_isalnum : N → bool) (select_table_tr : bytes → list tag_tr)
    (net : request → nat → outcome) (semester : str) :
  get_departments unicode_isalnum select_table_tr net semester
  = ((index_request <$> index_letters) ≫= (λ req, trace (fetch net req 3)),
     inr (sorted_set (found unicode_isalnum select_table_tr net semester))).
Proof.
  unfold get_departments.
  rewrite (mapM_run _ (λ c, fetched net (index_request c) 3))
    by (intros c _; apply returned_Some, fetch_returns).
  rewrite run_bind_pure_trace, run_ret_trace, run_ret_result, app_nil_r.
  unfold found. by rewrite !list_fmap_bind.
Qed.

Lemma get_courses_trace
    (net : request → nat → outcome) (decode : bytes → str)
    (loads : str → exn + pyval) (py_str : pyval → str)
    (term_code : str) (departments : list str) :
  trace (get_courses net decode loads py_str term_code departments)
  = (shard_request term_code <$> departments) ≫= (λ req, trace (fetch net req 3)).
Proof.
  unfold get_courses, harvest.
  destruct (harvest_loop_shards net decode loads term_code departments [])
    as (parts & _ & ->).
  rewrite run_bind_pure_trace. unfold trace at 1. cbn [fst].
  by rewrite dedupe_trace, app_nil_r, list_fmap_bind.
Qed.

(** X16.  A run that gets past its first statement sends the requests of
    the 26 index pages, then those of its departments in their order, and
    no other; no request is sent more than three times, so a run with [n]
    departments sends at most [3 * (26 + n)] requests.  That holds whether
    the run returns or the deduplication raises. *)
Theorem run_traffic
    (unicode_decimal : N → option N) (unicode_isalnum : N → bool)
    (select_table_tr : bytes → list tag_tr) (net : request → nat → outcome)
    (decode : bytes → str) (loads : str → exn + pyval) (py_str : pyval → str)
    (term_code : str) (run : Run (list pyval)) :
  scrape_courses unicode_decimal unicode_isalnum select_table_tr net
    decode loads py_str term_code = inr run →
  ∃ semester departments,
    semester_of unicode_decimal term_code = inr semester ∧
    result (discover unicode_isalnum select_table_tr net semester MANUAL_DEPTS)
      = inr departments ∧
    trace run
    = run_requests term_code departments ≫= (λ req, trace (fetch net req 3)) ∧
    (∀ req, req ∈ gets (trace run) → req ∈ run_requests term_code departments) ∧
    (∀ req, (sent req (trace run) ≤ 3)%nat) ∧
    (attempts (trace run) ≤ 3 * (26 + length departments))%nat.
Proof.
  unfold scrape_courses.
  destruct (semester_of unicode_decimal term_code) as [e|semester]; [done|].
  intros [= <-]. exists semester.
  pose proof (discover_returns unicode_isalnum select_table_tr net semester
                MANUAL_DEPTS) as Hd.
  apply returned_Some in Hd.
  set (departments := sorted_set
         (sorted_set (found unicode_isalnum select_table_tr net semester)
            ++ MANUAL_DEPTS)) in *.
  exists departments. split; [done|]. split; [done|].
  assert (Htrace :
    trace (deps ← discover unicode_isalnum select_table_tr net semester MANUAL_DEPTS;
           get_courses net decode loads py_str term_code deps)
    = run_requests term_code departments ≫= (λ req, trace (fetch net req 3))).
  { rewrite (trace_bind _ _ departments Hd), get_courses_trace.
    unfold discover. rewrite get_departments_run, run_bind_pure_trace.
    rewrite run_ret_trace, app_nil_r. unfold trace at 1. cbn [fst].
    unfold run_requests. by rewrite bind_app. }
  rewrite Htrace. split; [done|].
  split; [apply traffic_gets|].
  split.
  - intros req. apply traffic_sent, NoDup_run_requests, NoDup_sorted_set.
  - etrans; [apply traffic_attempts|].
    unfold run_requests. rewrite length_app, !length_fmap.
    change (length index_letters) with 26%nat. lia.
Qed.

Lemma run_traffic_witness :
  ∃ run,
    scrape_courses (λ _, None) (λ _, false) (λ _, [])
      (λ _ _, Failure TransportError) Utf8.decode_ignore Json.loads (λ _, [])
      (lit "20253") = inr run ∧
    ∀ req, (sent req (trace run) ≤ 3)%nat.
Proof.
  eexists. split; [reflexivity|].
  destruct (run_traffic (λ _, None) (λ _, false) (λ _, [])
              (λ _ _, Failure TransportError) Utf8.decode_ignore Json.loads
              (λ _, []) (lit "20253") _ eq_refl)
    as (semester & departments & _ & _ & _ & _ & Hsent & _).
  exact Hsent.
Defined.
